(** * core-js-101: the CSS selector builder and the promise tasks

    A shallow embedding of [cssSelectorBuilder]: the [Utils] helpers that
    assemble the error messages, the [SelectorBuilder] constructor with its
    table [ORDERED_SELECTORS], the prototype methods [check], [stringify] and
    [combine], and the six handlers that [selectorMaker] installs on the
    prototype; and of the promise tasks [willYouMarryMe], [$willYouMarryMe]
    and [chainPromises].

    Strings are [string] (bytes); integers are [Z] because [order] starts
    at [-1]; a thrown value is a [Thrown]; a call that may throw returns a
    [completion]. *)

From Stdlib Require Import ZArith Ascii String List Lia.
From stdpp Require Import base option list strings gmap sorting.

Local Open Scope Z_scope.

(** ** Thrown values and completions *)

(** What a [throw] carries: [new Error(message)], or the [TypeError] the
    engine raises when a property of [undefined] is read or a non-function
    is called. *)
Inductive Thrown : Type :=
  | Error (message : string)
  | TypeError (message : string).

Definition message (t : Thrown) : string :=
  match t with
  | Error m => m
  | TypeError m => m
  end.

Inductive completion (A : Type) : Type :=
  | Normal (value : A)
  | Throw (thrown : Thrown).

Arguments Normal {A} value.
Arguments Throw {A} thrown.

(** Sequencing: a throw skips the rest ([x ← c; k] and [c;; k] below). *)
#[export] Instance completion_ret : MRet completion := λ A a, Normal a.
#[export] Instance completion_bind : MBind completion := λ A B k c,
  match c with
  | Normal a => k a
  | Throw t => Throw t
  end.

(** ** Array and string primitives used by the source *)

Module Js.

(** [Array.prototype.slice(start, end)]: negative indices count from the
    end, both are clamped to the array, [end] absent means the length. *)
Definition slice {A : Type} (l : list A) (start : Z) (end_ : option Z)
  : list A :=
  let len := Z.of_nat (List.length l) in
  let k := if start <? 0 then Z.max (len + start) 0 else Z.min start len in
  let e := match end_ with None => len | Some e => e end in
  let final := if e <? 0 then Z.max (len + e) 0 else Z.min e len in
  take (Z.to_nat (final - k)) (drop (Z.to_nat k) l).

(** [Array.prototype.join(sep)] on an array of strings. *)
Fixpoint join (sep : string) (l : list string) : string :=
  match l with
  | [] => ""
  | [x] => x
  | x :: rest => x +:+ sep +:+ join sep rest
  end.

(** [String.prototype.toUpperCase] on one ASCII character: the letters
    [a]-[z] move to [A]-[Z], every other byte stays. *)
Definition toUpperCase (c : ascii) : ascii :=
  let n := N_of_ascii c in
  if ((97 <=? n) && (n <=? 122))%N then ascii_of_N (n - 32) else c.

End Js.

(** ** Utils *)

Module Utils.

(** [capitalize: (str) => str[0].toUpperCase() + str.slice(1)];
    [str[0]] is [undefined] on the empty string and the call throws.
    The upper-casing is that of [Js.toUpperCase], which is the engine's
    on an ASCII first character only. *)
Definition capitalize (str : string) : completion string :=
  match str with
  | EmptyString =>
      Throw (TypeError "Cannot read properties of undefined (reading 'toUpperCase')")
  | String c rest => Normal (String (Js.toUpperCase c) rest)
  end.

(** [joinColon: (list) => list.join(', ')] *)
Definition joinColon (list : list string) : string := Js.join ", " list.

(** [joinStart]: the first entry capitalized, then the middle entries,
    then the last two joined by [" and "], all joined by [", "].
    [list[0]] is [undefined] on the empty array and [capitalize] throws. *)
Definition joinStart (list : list string) : completion string :=
  let first := head list in
  let rest := Js.slice list 1 (Some (-2)) in
  let lastTwo := Js.slice list (-2) None in
  match first with
  | None => Throw (TypeError "Cannot read properties of undefined (reading '0')")
  | Some first =>
      cap ← capitalize first;
      Normal (Js.join ", " ([cap] ++ rest ++ [Js.join " and " lastTwo]))
  end.

End Utils.

(** ** The selector table *)

(** [SelectorConfig]: one entry of [ORDERED_SELECTORS]. *)
Record SelectorConfig : Type := {
  name : string;
  unique : bool;
  toString : string → string;
  errorName : string;
}.

Definition ORDERED_SELECTORS : list SelectorConfig := [
  {| name := "element"; unique := true;
     toString := λ s, s; errorName := "element" |};
  {| name := "id"; unique := true;
     toString := λ s, "#" +:+ s; errorName := "id" |};
  {| name := "class"; unique := false;
     toString := λ s, "." +:+ s; errorName := "class" |};
  {| name := "attr"; unique := false;
     toString := λ s, "[" +:+ s +:+ "]"; errorName := "attribute" |};
  {| name := "pseudoClass"; unique := false;
     toString := λ s, ":" +:+ s; errorName := "pseudo-class" |};
  {| name := "pseudoElement"; unique := true;
     toString := λ s, "::" +:+ s; errorName := "pseudo-element" |}
].

(** ** SelectorBuilder *)

(** The two fields the constructor sets on [this]. *)
Record SelectorBuilder : Type := {
  selector : string;
  order : Z;
}.

(** The options object of the constructor; an absent key is [None]. *)
Record SelectorOptions : Type := {
  opt_order : option Z;
  opt_selector : option string;
}.

(** [function SelectorBuilder({ order = -1, selector = '' } = {})] *)
Definition new_SelectorBuilder (opts : SelectorOptions) : SelectorBuilder :=
  {| selector := default "" (opt_selector opts);
     order := default (-1) (opt_order opts) |}.

(** The two messages that [check] assembles from the table
    ([orders], [WRONG_ORDER], [uniques], [UNIQUES_REPEAT] in the source). *)
Definition WRONG_ORDER (SELECTORS : list SelectorConfig) : string :=
  let orders := map errorName SELECTORS in
  "Selector parts should be arranged in the following order: "
    +:+ Utils.joinColon orders.

Definition UNIQUES_REPEAT (SELECTORS : list SelectorConfig)
  : completion string :=
  let uniques := map errorName (filter (λ c, unique c = true) SELECTORS) in
  joined ← Utils.joinStart uniques;
  Normal (joined +:+ " should not occur more then one time inside the selector").

(** [check(order, isUnique)], with [this.constructor.ORDERED_SELECTORS]
    the table above. *)
Definition check (this : SelectorBuilder) (order_ : Z) (isUnique : bool)
  : completion unit :=
  let SELECTORS := ORDERED_SELECTORS in
  if order this >? order_ then
    Throw (Error (WRONG_ORDER SELECTORS))
  else if isUnique && (order this =? order_) then
    msg ← UNIQUES_REPEAT SELECTORS;
    Throw (Error msg)
  else Normal tt.

(** [stringify()] *)
Definition stringify (this : SelectorBuilder) : string := selector this.

(** [combine(selector1, combinator, selector2)]: the receiver only supplies
    the constructor; [order] is left out of the options. *)
Definition combine (this selector1 : SelectorBuilder) (combinator : string)
    (selector2 : SelectorBuilder) : SelectorBuilder :=
  new_SelectorBuilder
    {| opt_order := None;
       opt_selector :=
         Some (selector selector1 +:+ " " +:+ combinator +:+ " "
                 +:+ selector selector2) |}.

(** [selectorMaker({ order, unique, toString })] returns [selectorHandler]. *)
Definition selectorMaker (order_ : Z) (unique_ : bool)
    (toString_ : string → string)
  : SelectorBuilder → string → completion SelectorBuilder :=
  λ this value,
    check this order_ unique_;;
    Normal (new_SelectorBuilder
              {| opt_order := Some order_;
                 opt_selector := Some (selector this +:+ toString_ value) |}).

(** The [forEach] over [ORDERED_SELECTORS], which sets
    [prototype[name] = selectorMaker({ unique, toString, order })] with
    [order] the array index; [maker] stands for [selectorMaker]. *)
Definition install {H : Type} (maker : Z → bool → (string → string) → H)
  : gmap string H :=
  foldl (λ proto '(i, c),
           <[name c := maker (Z.of_nat i) (unique c) (toString c)]> proto)
        ∅ (imap pair ORDERED_SELECTORS).

(** The handlers on [SelectorBuilder.prototype], keyed by [name]. *)
Definition prototype
  : gmap string (SelectorBuilder → string → completion SelectorBuilder) :=
  install selectorMaker.

(** [this[name](value)] for the name of a handler; a name the prototype
    lacks is not a function.  The other entries of the prototype
    ([constructor], [check], [stringify], [combine]) are not in this map:
    the properties below take their names from the table. *)
Definition invoke (name_ : string) (this : SelectorBuilder) (value : string)
  : completion SelectorBuilder :=
  match prototype !! name_ with
  | Some handler => handler this value
  | None => Throw (TypeError (name_ +:+ " is not a function"))
  end.

(** [const cssSelectorBuilder = new SelectorBuilder()] *)
Definition cssSelectorBuilder : SelectorBuilder :=
  new_SelectorBuilder {| opt_order := None; opt_selector := None |}.

(** ** The same methods over a store of objects

    Objects live in a store and are passed by reference; [new] allocates.
    A method receives references, reads fields through them, and returns
    the store it leaves behind together with its completion. *)

Module Heap.

Definition loc : Type := nat.

(** A computation over the store.  [None] is a read through a reference
    to no object, which a reference obtained from [new] never is. *)
Definition M (A : Type) : Type :=
  list SelectorBuilder → option (completion A * list SelectorBuilder).

Definition ret {A : Type} (a : A) : M A := λ h, Some (Normal a, h).

Definition throw {A : Type} (t : Thrown) : M A := λ h, Some (Throw t, h).

Definition bind {A B : Type} (m : M A) (k : A → M B) : M B := λ h,
  match m h with
  | Some (Normal a, h') => k a h'
  | Some (Throw t, h') => Some (Throw t, h')
  | None => None
  end.

#[export] Instance M_ret : MRet M := @ret.
#[export] Instance M_bind : MBind M := λ A B k m, bind m k.

(** A pure computation that may throw. *)
Definition lift {A : Type} (c : completion A) : M A := λ h, Some (c, h).

(** [ref.selector] and [ref.order] *)
Definition get_selector (ref : loc) : M string := λ h,
  match h !! ref with
  | Some o => Some (Normal (selector o), h)
  | None => None
  end.

Definition get_order (ref : loc) : M Z := λ h,
  match h !! ref with
  | Some o => Some (Normal (order o), h)
  | None => None
  end.

(** [new SelectorBuilder(opts)]: a fresh object at the end of the store,
    its two fields set by the constructor. *)
Definition new (opts : SelectorOptions) : M loc := λ h,
  Some (Normal (List.length h), h ++ [new_SelectorBuilder opts]).

(** [check]: [this.order] is read for each comparison that is evaluated. *)
Definition check (this : loc) (order_ : Z) (isUnique : bool) : M unit :=
  let SELECTORS := ORDERED_SELECTORS in
  o ← get_order this;
  if o >? order_ then
    throw (Error (WRONG_ORDER SELECTORS))
  else
    repeated ←
      (if isUnique
       then o' ← get_order this; ret (o' =? order_)
       else ret false : M bool);
    if (repeated : bool) then
      msg ← lift (UNIQUES_REPEAT SELECTORS);
      throw (Error msg)
    else ret tt.

Definition stringify (this : loc) : M string := get_selector this.

Definition combine (this selector1 : loc) (combinator : string)
    (selector2 : loc) : M loc :=
  s1 ← get_selector selector1;
  s2 ← get_selector selector2;
  new {| opt_order := None;
         opt_selector := Some (s1 +:+ " " +:+ combinator +:+ " " +:+ s2) |}.

Definition selectorMaker (order_ : Z) (unique_ : bool)
    (toString_ : string → string) : loc → string → M loc :=
  λ this value,
    check this order_ unique_;;
    s ← get_selector this;
    new {| opt_order := Some order_;
           opt_selector := Some (s +:+ toString_ value) |}.

Definition prototype : gmap string (loc → string → M loc) :=
  install selectorMaker.

Definition invoke (name_ : string) (this : loc) (value : string) : M loc :=
  match prototype !! name_ with
  | Some handler => handler this value
  | None => throw (TypeError (name_ +:+ " is not a function"))
  end.

(** The store once the module is loaded: [cssSelectorBuilder] alone, at
    reference [0]. *)
Definition initial : list SelectorBuilder := [cssSelectorBuilder].

(** A client's call on references, and a sequence of such calls; a throw
    is caught so that the run goes on. *)
Inductive Call : Type :=
  | CallHandler (name_ : string) (this : loc) (value : string)
  | CallCombine (this selector1 : loc) (combinator : string)
      (selector2 : loc).

Definition call (c : Call) : M loc :=
  match c with
  | CallHandler n this v => invoke n this v
  | CallCombine this s1 cb s2 => combine this s1 cb s2
  end.

Fixpoint run (cs : list Call) (h : list SelectorBuilder)
  : option (list SelectorBuilder) :=
  match cs with
  | [] => Some h
  | c :: cs' =>
      match call c h with
      | Some (_, h') => run cs' h'
      | None => None
      end
  end.

End Heap.

(** ** Expressions a client can build *)

(** The expressions reachable from the entry point: [cssSelectorBuilder]
    itself, [recv.name(value)], and [recv.combine(left, combinator, right)]. *)
Inductive Chain : Type :=
  | Entry
  | Append (recv : Chain) (name_ : string) (value : string)
  | Combine (recv left : Chain) (combinator : string) (right : Chain).

Fixpoint build (c : Chain) : completion SelectorBuilder :=
  match c with
  | Entry => Normal cssSelectorBuilder
  | Append recv n v => this ← build recv; invoke n this v
  | Combine recv l cb r =>
      this ← build recv;
      s1 ← build l;
      s2 ← build r;
      Normal (combine this s1 cb s2)
  end.

(** The table entry a handler name belongs to, with its index. *)
Definition config_of (name_ : string) : option (nat * SelectorConfig) :=
  list_find (λ c, name c = name_) ORDERED_SELECTORS.

Definition unique_rank (k : nat) : bool :=
  match ORDERED_SELECTORS !! k with
  | Some c => unique c
  | None => false
  end.

(** What a chain writes into its text, left to right: the fragment of each
    append, tagged with the rank of its kind, and the padded combinator of
    each combination. *)
Inductive Piece : Type :=
  | Fragment (rank : nat) (text : string)
  | Glue (text : string).

Definition piece_text (p : Piece) : string :=
  match p with
  | Fragment _ t => t
  | Glue t => t
  end.

Definition text_of (ps : list Piece) : string :=
  foldr (λ p s, piece_text p +:+ s) "" ps.

Definition piece_rank (p : Piece) : option nat :=
  match p with
  | Fragment k _ => Some k
  | Glue _ => None
  end.

Fixpoint layout (c : Chain) : list Piece :=
  match c with
  | Entry => []
  | Append recv n v =>
      layout recv ++
        match config_of n with
        | Some (i, cfg) => [Fragment i (toString cfg v)]
        | None => []
        end
  | Combine _ l cb r => layout l ++ [Glue (" " +:+ cb +:+ " ")] ++ layout r
  end.

(** The ranks of the kinds in the text, in text order. *)
Definition kinds (c : Chain) : list nat := omap piece_rank (layout c).

(** The ranks appended since the last combination (all of them when the
    chain has none). *)
Fixpoint recent (c : Chain) : list nat :=
  match c with
  | Entry => []
  | Append recv n _ =>
      recent recv ++
        match config_of n with
        | Some (i, _) => [i]
        | None => []
        end
  | Combine _ _ _ _ => []
  end.

Fixpoint combine_free (c : Chain) : bool :=
  match c with
  | Entry => true
  | Append recv _ _ => combine_free recv
  | Combine _ _ _ _ => false
  end.

(** The invariant of the data model, on a sequence of ranks: no kind that
    is [unique] occurs at two positions, and ranks never decrease. *)
Definition unique_once (ks : list nat) : Prop :=
  ∀ i j k, ks !! i = Some k → ks !! j = Some k →
           unique_rank k = true → i = j.

Definition rank_ordered (ks : list nat) : Prop :=
  ∀ i j a b, (i ≤ j)%nat → ks !! i = Some a → ks !! j = Some b → (a ≤ b)%nat.

Definition compound_invariant (ks : list nat) : Prop :=
  unique_once ks ∧ rank_ordered ks.

(** The ranks of the fragments after the last combinator of a text. *)
Definition last_compound (ps : list Piece) : list nat :=
  foldl (λ acc p,
           match p with
           | Fragment k _ => acc ++ [k]
           | Glue _ => []
           end) [] ps.

(** [builder.combine(builder.element('div'), '>',
    builder.element('p').id('x')).element('span')] *)
Definition span_after_combine : Chain :=
  Append
    (Combine Entry (Append Entry "element" "div") ">"
       (Append (Append Entry "element" "p") "id" "x"))
    "element" "span".

(** A call on references that is one of the six handlers of the table, or
    [combine]. *)
Definition table_call (c : Heap.Call) : Prop :=
  match c with
  | Heap.CallHandler n _ _ => is_Some (config_of n)
  | Heap.CallCombine _ _ _ _ => True
  end.

(** Every handler name used in the chain is a name of the table. *)
Fixpoint names_known (c : Chain) : bool :=
  match c with
  | Entry => true
  | Append recv n _ => names_known recv && bool_decide (is_Some (config_of n))
  | Combine recv l _ r => names_known recv && names_known l && names_known r
  end.

(** * The promise tasks (06-promises-tasks.js)

    A promise is modelled by its state.  The callbacks that the runtime
    runs later, one per settled promise, are modelled by the order in which
    it runs them, which the caller of the model chooses. *)

Module Promises.

(** The values a caller may pass where a boolean is expected.  The code
    looks at [typeof] and at truthiness only; numbers are the integers. *)
Inductive JsValue : Type :=
  | JsUndefined
  | JsNull
  | JsBoolean (b : bool)
  | JsNumber (n : Z)
  | JsString (s : string)
  | JsObject.

Definition typeof (v : JsValue) : string :=
  match v with
  | JsUndefined => "undefined"
  | JsNull => "object"
  | JsBoolean _ => "boolean"
  | JsNumber _ => "number"
  | JsString _ => "string"
  | JsObject => "object"
  end.

(** The truthiness that [v ? a : b] tests. *)
Definition ToBoolean (v : JsValue) : bool :=
  match v with
  | JsUndefined | JsNull => false
  | JsBoolean b => b
  | JsNumber n => negb (n =? 0)
  | JsString s => negb (String.eqb s "")
  | JsObject => true
  end.

(** [String(e)] of a thrown error: its name, then its message if any. *)
Definition ToString (e : Thrown) : string :=
  match e with
  | Error "" => "Error"
  | Error m => "Error: " +:+ m
  | TypeError "" => "TypeError"
  | TypeError m => "TypeError: " +:+ m
  end.

Inductive PromiseState (A : Type) : Type :=
  | Pending
  | Fulfilled (value : A)
  | Rejected (reason : Thrown).

Arguments Pending {A}.
Arguments Fulfilled {A} value.
Arguments Rejected {A} reason.

(** The [resolve] and [reject] functions handed to an executor, [resolve]
    on a plain value such as a string ([resolve_with] below takes any
    value): only a pending promise changes. *)
Definition resolve {A : Type} (value : A) (p : PromiseState A)
  : PromiseState A :=
  match p with
  | Pending => Fulfilled value
  | _ => p
  end.

Definition reject {A : Type} (reason : Thrown) (p : PromiseState A)
  : PromiseState A :=
  match p with
  | Pending => Rejected reason
  | _ => p
  end.

(** [new Promise(executor)]: the executor runs at once on the new pending
    promise. *)
Definition new_Promise {A : Type}
    (executor : PromiseState A → PromiseState A) : PromiseState A :=
  executor Pending.

(** The promise an [async function] returns for a body without [await]. *)
Definition async_function {A : Type} (body : completion A) : PromiseState A :=
  match body with
  | Normal value => Fulfilled value
  | Throw reason => Rejected reason
  end.

Definition quote : string := String "034"%char EmptyString.

Definition ERR : string := "Wrong parameter is passed! Ask her again.".
Definition YES : string :=
  "Hooray!!! She said " +:+ quote +:+ "Yes" +:+ quote +:+ "!".
Definition REJ : string :=
  "Oh no, she said " +:+ quote +:+ "No" +:+ quote +:+ ".".

(** [async function $willYouMarryMe(isPositiveAnswer)] *)
Definition dollar_willYouMarryMe (isPositiveAnswer : JsValue)
  : PromiseState string :=
  async_function
    (if negb (String.eqb (typeof isPositiveAnswer) "boolean")
     then Throw (Error ERR)
     else Normal (if ToBoolean isPositiveAnswer then YES else REJ)).

(** [function willYouMarryMe(isPositiveAnswer)]: after [reject] the
    executor goes on to [resolve]. *)
Definition willYouMarryMe (isPositiveAnswer : JsValue)
  : PromiseState string :=
  new_Promise (λ p,
    let p :=
      if negb (String.eqb (typeof isPositiveAnswer) "boolean")
      then reject (Error ERR) p
      else p in
    resolve (if ToBoolean isPositiveAnswer then YES else REJ) p).

(** A value as [resolve] and [action] see it: a plain value, or a thenable
    (a promise, for one), given by the outcome it ends in. *)
Inductive Value (A : Type) : Type :=
  | Plain (value : A)
  | Thenable (outcome : PromiseState A).

Arguments Plain {A} value.
Arguments Thenable {A} outcome.

(** The [resolve] function on any value: a plain value fulfils the
    promise, a thenable is followed and the promise ends as it does. *)
Definition resolve_with {A : Type} (v : Value A) (p : PromiseState A)
  : PromiseState A :=
  match v with
  | Plain value => resolve value p
  | Thenable outcome =>
      match p with
      | Pending => outcome
      | _ => p
      end
  end.

(** A rejection reason, as [new Error(reason)] sees it: an error object,
    or any other value given by the message its string conversion yields;
    the conversion throws for a [Symbol]. *)
Inductive Reason : Type :=
  | ErrorObject (e : Thrown)
  | OtherValue (message_of : completion string).

(** [new Error(reason)] *)
Definition new_Error (reason : Reason) : completion Thrown :=
  match reason with
  | ErrorObject e => Normal (Error (ToString e))
  | OtherValue message_of => m ← message_of; Normal (Error m)
  end.

(** How a promise of the input array settles; a fulfilment value is
    plain. *)
Inductive Settlement (A : Type) : Type :=
  | Fulfils (value : A)
  | Rejects (reason : Reason).

Arguments Fulfils {A} value.
Arguments Rejects {A} reason.

(** [Array.prototype.reduce(callback)] with no initial value; the callback
    may throw. *)
Fixpoint reduce_from {A : Type} (callback : A → A → completion A)
    (acc : A) (l : list A) : completion A :=
  match l with
  | [] => Normal acc
  | x :: rest => acc' ← callback acc x; reduce_from callback acc' rest
  end.

Definition reduce {A : Type} (callback : A → A → completion A) (l : list A)
  : completion A :=
  match l with
  | [] => Throw (TypeError "Reduce of empty array with no initial value")
  | x :: rest => reduce_from callback x rest
  end.

(** The variables that the callbacks of [chainPromises] share: the two
    arrays and the promise that was returned. *)
Record ChainState (A : Type) : Type := {
  resolved : list A;
  rejected : list Thrown;
  returned : PromiseState A;
}.

Arguments resolved {A} _.
Arguments rejected {A} _.
Arguments returned {A} _.

(** The [catch] block: [rejected.push(new Error(e))].  When [new Error(e)]
    throws, nothing is pushed and the throw leaves the callback. *)
Definition catch {A : Type} (e : Reason) (st : ChainState A) : ChainState A :=
  match new_Error e with
  | Normal err =>
      {| resolved := resolved st; rejected := rejected st ++ [err];
         returned := returned st |}
  | Throw _ => st
  end.

(** The callback of the [forEach], from the point where its [await]
    resumes with the settlement of [promise]; [length_] is
    [promises.length].  A throw in the [try], from [await] or from
    [action], ends in the [catch].  [action] gets what it returned before
    as its accumulator, which may be a thenable. *)
Definition callback {A : Type} (length_ : nat)
    (action : Value A → Value A → completion (Value A)) (st : ChainState A)
    (promise : Settlement A) : ChainState A :=
  match promise with
  | Fulfils res =>
      let resolved' := resolved st ++ [res] in
      let st' :=
        {| resolved := resolved'; rejected := rejected st;
           returned := returned st |} in
      if (List.length resolved' + List.length (rejected st) =? length_)%nat
      then
        match reduce action (map Plain resolved') with
        | Normal r =>
            {| resolved := resolved'; rejected := rejected st;
               returned := resolve_with r (returned st) |}
        | Throw e => catch (ErrorObject e) st'
        end
      else st'
  | Rejects e => catch e st
  end.

(** The settlements in the order the callbacks resume: [schedule] lists
    the indices of the promises in that order; a promise that never
    settles ([None]) has no callback run. *)
Definition settlements {A : Type} (promises : list (option (Settlement A)))
    (schedule : list nat) : list (Settlement A) :=
  omap (λ i, mjoin (promises !! i)) schedule.

Definition fulfilled {A : Type} (trace : list (Settlement A)) : list A :=
  omap (λ s, match s with Fulfils v => Some v | Rejects _ => None end) trace.

(** A settlement whose callback pushes onto one of the two arrays: a
    fulfilment, or a rejection whose reason [new Error] accepts. *)
Definition counts {A : Type} (s : Settlement A) : bool :=
  match s with
  | Fulfils _ => true
  | Rejects e =>
      match new_Error e with
      | Normal _ => true
      | Throw _ => false
      end
  end.

(** The promise at an index of the array settles, and its callback
    pushes. *)
Definition pushes {A : Type} (promises : list (option (Settlement A)))
    (i : nat) : bool :=
  from_option counts false (mjoin (promises !! i)).

(** [chainPromises(promises, action)], once the callbacks of [schedule]
    have run: the shared variables, and the returned promise. *)
Definition chainPromises_run {A : Type}
    (promises : list (option (Settlement A)))
    (action : Value A → Value A → completion (Value A))
    (schedule : list nat) : ChainState A :=
  foldl (callback (List.length promises) action)
        {| resolved := []; rejected := []; returned := new_Promise id |}
        (settlements promises schedule).

Definition chainPromises {A : Type}
    (promises : list (option (Settlement A)))
    (action : Value A → Value A → completion (Value A))
    (schedule : list nat) : PromiseState A :=
  returned (chainPromises_run promises action schedule).

End Promises.

(** * Properties *)

(** ** The examples of the source's documentation *)

Example scenario_classes :
  (a ← invoke "id" cssSelectorBuilder "main";
   b ← invoke "class" a "container";
   c ← invoke "class" b "editable";
   Normal (stringify c)) = Normal "#main.container.editable".
Proof. reflexivity. Qed.

Example scenario_nested_combine :
  let builder := cssSelectorBuilder in
  (d ← (a ← invoke "element" builder "div"; b ← invoke "id" a "main";
        c ← invoke "class" b "container"; invoke "class" c "draggable");
   t ← (a ← invoke "element" builder "table"; invoke "id" a "data");
   r ← (a ← invoke "element" builder "tr";
        invoke "pseudoClass" a "nth-of-type(even)");
   c ← (a ← invoke "element" builder "td";
        invoke "pseudoClass" a "nth-of-type(even)");
   Normal (stringify
             (combine builder d "+"
                (combine builder t "~" (combine builder r " " c)))))
  = Normal "div#main.container.draggable + table#data ~ tr:nth-of-type(even)   td:nth-of-type(even)".
Proof. reflexivity. Qed.

(** ** The table and the messages *)

Lemma WRONG_ORDER_text :
  WRONG_ORDER ORDERED_SELECTORS =
  "Selector parts should be arranged in the following order: element, id, class, attribute, pseudo-class, pseudo-element".
Proof. reflexivity. Qed.

Lemma UNIQUES_REPEAT_text :
  UNIQUES_REPEAT ORDERED_SELECTORS =
  Normal "Element, id and pseudo-element should not occur more then one time inside the selector".
Proof. reflexivity. Qed.

Section install_facts.
Context {H : Type} (maker : Z → bool → (string → string) → H).

Lemma install_unfold :
  install maker =
  foldr (λ '(i, c) proto,
           <[name c := maker (Z.of_nat i) (unique c) (toString c)]> proto)
        ∅ (reverse (imap pair ORDERED_SELECTORS)).
Proof. reflexivity. Qed.

Lemma install_lookup_entry (i : nat) (cfg : SelectorConfig) :
  ORDERED_SELECTORS !! i = Some cfg →
  install maker !! name cfg
  = Some (maker (Z.of_nat i) (unique cfg) (toString cfg)).
Proof.
  intros Hi.
  do 6 (destruct i as [|i]; [injection Hi as <-; reflexivity|]).
  discriminate.
Qed.

Lemma install_lookup_other (n : string) :
  Forall (λ c, name c ≠ n) ORDERED_SELECTORS → install maker !! n = None.
Proof.
  intros Hn. rewrite install_unfold.
  cbn [reverse rev_append imap foldr ORDERED_SELECTORS compose name].
  unfold ORDERED_SELECTORS in Hn.
  repeat (apply Forall_cons_1 in Hn as [? Hn]; cbn [name] in *).
  rewrite !lookup_insert_ne by done. apply lookup_empty.
Qed.

(** A name is on the prototype exactly when the table has it, and then
    holds the handler made from that entry and its index. *)
Lemma install_lookup (n : string) :
  install maker !! n
  = (λ '(i, c), maker (Z.of_nat i) (unique c) (toString c)) <$> config_of n.
Proof.
  destruct (config_of n) as [[i cfg]|] eqn:Hc; unfold config_of in Hc; simpl.
  - apply list_find_Some in Hc as (Hi & <- & _).
    by apply install_lookup_entry.
  - apply list_find_None in Hc. by apply install_lookup_other.
Qed.
End install_facts.

Lemma invoke_handler (i : nat) (cfg : SelectorConfig) this value :
  ORDERED_SELECTORS !! i = Some cfg →
  invoke (name cfg) this value
  = selectorMaker (Z.of_nat i) (unique cfg) (toString cfg) this value.
Proof.
  intros Hi. unfold invoke, prototype. by rewrite (install_lookup_entry _ i cfg).
Qed.

Lemma invoke_config (n : string) this value :
  invoke n this value =
  match config_of n with
  | Some (i, cfg) =>
      selectorMaker (Z.of_nat i) (unique cfg) (toString cfg) this value
  | None => Throw (TypeError (n +:+ " is not a function"))
  end.
Proof.
  unfold invoke, prototype. rewrite install_lookup.
  by destruct (config_of n) as [[i cfg]|].
Qed.

Lemma ORDERED_SELECTORS_bound (i : nat) (cfg : SelectorConfig) :
  ORDERED_SELECTORS !! i = Some cfg → (i < 6)%nat.
Proof. intros Hi. by apply lookup_lt_Some in Hi. Qed.

(** ** Strings *)

Lemma string_app_assoc (s1 s2 s3 : string) :
  (s1 +:+ s2) +:+ s3 = s1 +:+ s2 +:+ s3.
Proof.
  induction s1 as [|c s1 IH]; [done|].
  change (String c ((s1 +:+ s2) +:+ s3) = String c (s1 +:+ s2 +:+ s3)).
  by f_equal.
Qed.

Lemma string_app_empty_r (s : string) : s +:+ "" = s.
Proof.
  induction s as [|c s IH]; [done|].
  change (String c (s +:+ "") = String c s). by f_equal.
Qed.

(** ** [check] and the handlers *)

Section check_facts.
Variables (this : SelectorBuilder) (order_ : Z).

Lemma check_order_violation (isUnique : bool) :
  order_ < order this →
  check this order_ isUnique = Throw (Error (WRONG_ORDER ORDERED_SELECTORS)).
Proof. intros Hlt. unfold check. by rewrite (proj2 (Z.gtb_lt _ _) Hlt). Qed.

Lemma check_repeat :
  order this = order_ →
  check this order_ true =
  msg ← UNIQUES_REPEAT ORDERED_SELECTORS; Throw (Error msg).
Proof.
  intros Heq. unfold check.
  destruct (order this >? order_) eqn:Hgt; [apply Z.gtb_lt in Hgt; lia|].
  by rewrite (proj2 (Z.eqb_eq _ _) Heq).
Qed.

Lemma check_pass (isUnique : bool) :
  order this ≤ order_ → (isUnique = true → order this ≠ order_) →
  check this order_ isUnique = Normal tt.
Proof.
  intros Hle Hne. unfold check.
  destruct (order this >? order_) eqn:Hgt; [apply Z.gtb_lt in Hgt; lia|].
  destruct isUnique; [|done].
  by rewrite (proj2 (Z.eqb_neq _ _) (Hne eq_refl)).
Qed.

(** The three outcomes, by the position of [order_] against
    [this.order]. *)
Lemma check_cases (isUnique : bool) :
  (order_ < order this
   ∧ check this order_ isUnique = Throw (Error (WRONG_ORDER ORDERED_SELECTORS)))
  ∨ (order this = order_ ∧ isUnique = true
     ∧ check this order_ isUnique =
       (msg ← UNIQUES_REPEAT ORDERED_SELECTORS; Throw (Error msg)))
  ∨ (order this ≤ order_ ∧ (isUnique = true → order this ≠ order_)
     ∧ check this order_ isUnique = Normal tt).
Proof.
  destruct (Z_lt_le_dec order_ (order this)) as [Hlt|Hle].
  { left. eauto using check_order_violation. }
  destruct isUnique.
  - destruct (decide (order this = order_)) as [Heq|Hne].
    + right; left. eauto using check_repeat.
    + right; right. split_and!; [done | done |]. by apply check_pass.
  - right; right. split_and!; [done | done |]. by apply check_pass.
Qed.
End check_facts.

Lemma selectorMaker_pass this order_ unique_ toString_ value :
  check this order_ unique_ = Normal tt →
  selectorMaker order_ unique_ toString_ this value =
  Normal {| selector := selector this +:+ toString_ value; order := order_ |}.
Proof. intros Hc. unfold selectorMaker. by rewrite Hc. Qed.

Lemma selectorMaker_throw this order_ unique_ toString_ value t :
  check this order_ unique_ = Throw t →
  selectorMaker order_ unique_ toString_ this value = Throw t.
Proof. intros Hc. unfold selectorMaker. by rewrite Hc. Qed.

(** A handler that returns has passed [check], and its result is the
    receiver's text followed by the fragment. *)
Lemma selectorMaker_Normal this order_ unique_ toString_ value r :
  selectorMaker order_ unique_ toString_ this value = Normal r →
  check this order_ unique_ = Normal tt
  ∧ r = {| selector := selector this +:+ toString_ value; order := order_ |}.
Proof.
  unfold selectorMaker. destruct (check this order_ unique_) as [[]|t]; simpl.
  - intros [= <-]. done.
  - discriminate.
Qed.

(** ** Appending a fragment *)

(** C1. Whenever one of the six handlers returns, the new expression's text
    is the receiver's text immediately followed by the rendered fragment,
    and its [order] is the index of the kind in the table.  The table
    renders, at ranks 0 to 5: [element] the value itself, [id] with a
    leading [#], [class] with a leading [.], [attr] between brackets,
    [pseudoClass] with a leading [:], [pseudoElement] with a leading [::]. *)
Theorem append_success (i : nat) (cfg : SelectorConfig)
    (this : SelectorBuilder) (value : string) (r : SelectorBuilder) :
  ORDERED_SELECTORS !! i = Some cfg →
  invoke (name cfg) this value = Normal r →
  selector r = selector this +:+ toString cfg value
  ∧ order r = Z.of_nat i
  ∧ imap (λ k c, (name c, k, toString c value)) ORDERED_SELECTORS =
    [ ("element", 0%nat, value);
      ("id", 1%nat, "#" +:+ value);
      ("class", 2%nat, "." +:+ value);
      ("attr", 3%nat, "[" +:+ value +:+ "]");
      ("pseudoClass", 4%nat, ":" +:+ value);
      ("pseudoElement", 5%nat, "::" +:+ value) ].
Proof.
  intros Hi Hr. rewrite (invoke_handler i cfg) in Hr by done.
  apply selectorMaker_Normal in Hr as [_ ->]. done.
Qed.

Lemma append_success_witness :
  selector {| selector := "#main.container"; order := 2 |}
    = selector {| selector := "#main"; order := 1 |} +:+ "." +:+ "container"
  ∧ order {| selector := "#main.container"; order := 2 |} = Z.of_nat 2
  ∧ imap (λ k c, (name c, k, toString c "container")) ORDERED_SELECTORS =
    [ ("element", 0%nat, "container");
      ("id", 1%nat, "#" +:+ "container");
      ("class", 2%nat, "." +:+ "container");
      ("attr", 3%nat, "[" +:+ "container" +:+ "]");
      ("pseudoClass", 4%nat, ":" +:+ "container");
      ("pseudoElement", 5%nat, "::" +:+ "container") ].
Proof.
  apply (append_success 2
           {| name := "class"; unique := false;
              toString := λ s, "." +:+ s; errorName := "class" |}
           {| selector := "#main"; order := 1 |} "container").
  - reflexivity.
  - reflexivity.
Defined.

(** C2. A handler whose rank is below the receiver's [order] throws the
    order error, whichever two kinds are involved; its message ends in the
    six labels in table order joined by [", "].  A handler whose rank is at
    least the receiver's [order] does not throw the order error. *)
Theorem order_violation (i : nat) (cfg : SelectorConfig)
    (this : SelectorBuilder) (value : string) :
  ORDERED_SELECTORS !! i = Some cfg →
  let message_ :=
    "Selector parts should be arranged in the following order: "
      +:+ Js.join ", " ["element"; "id"; "class"; "attribute";
                         "pseudo-class"; "pseudo-element"] in
  (Z.of_nat i < order this →
   invoke (name cfg) this value = Throw (Error message_))
  ∧ (order this ≤ Z.of_nat i →
     check this (Z.of_nat i) (unique cfg) ≠ Throw (Error message_)
     ∧ invoke (name cfg) this value ≠ Throw (Error message_)).
Proof.
  intros Hi message_. rewrite (invoke_handler i cfg) by done. split.
  - intros Hlt. apply selectorMaker_throw. by apply check_order_violation.
  - intros Hle.
    assert (check this (Z.of_nat i) (unique cfg) ≠ Throw (Error message_))
      as Hcheck.
    { destruct (check_cases this (Z.of_nat i) (unique cfg))
        as [[? _]|[(_ & _ & ->)|(_ & _ & ->)]]; [lia | | done].
      rewrite UNIQUES_REPEAT_text. discriminate. }
    split; [done|]. unfold selectorMaker.
    destruct (check this (Z.of_nat i) (unique cfg)) as [[]|t]; [done|].
    simpl. congruence.
Qed.

Lemma order_violation_witness :
  invoke "id" {| selector := "#main.c1"; order := 2 |} "other" =
  Throw (Error
    "Selector parts should be arranged in the following order: element, id, class, attribute, pseudo-class, pseudo-element").
Proof.
  refine (proj1 (order_violation 1
                   {| name := "id"; unique := true;
                      toString := λ s, "#" +:+ s; errorName := "id" |}
                   {| selector := "#main.c1"; order := 2 |} "other" _) _).
  - reflexivity.
  - simpl. lia.
Defined.

(** A handler that throws has thrown one of the two errors of [check]. *)
Lemma invoke_Throw (i : nat) (cfg : SelectorConfig)
    (this : SelectorBuilder) (value : string) (t : Thrown) :
  ORDERED_SELECTORS !! i = Some cfg →
  invoke (name cfg) this value = Throw t →
  (Z.of_nat i < order this ∧ t = Error (WRONG_ORDER ORDERED_SELECTORS))
  ∨ (order this = Z.of_nat i ∧ unique cfg = true
     ∧ UNIQUES_REPEAT ORDERED_SELECTORS = Normal (message t)
     ∧ t = Error (message t)).
Proof.
  intros Hi. rewrite (invoke_handler i cfg) by done. unfold selectorMaker.
  destruct (check_cases this (Z.of_nat i) (unique cfg))
    as [[? ->]|[(? & ? & ->)|(_ & _ & ->)]]; simpl.
  - intros [= <-]. by left.
  - rewrite UNIQUES_REPEAT_text. simpl. intros [= <-]. by right.
  - discriminate.
Qed.

(** C3. The kinds marked [unique] are [element], [id] and [pseudoElement].
    Calling the handler of one of them on a receiver whose [order] is that
    kind's rank, in particular on the result of the same handler, throws
    the uniqueness error, whose message names the labels of the three.
    Calling the handler of [class], [attr] or [pseudoClass] twice in a row
    returns, with both fragments at the end of the text. *)
Theorem repeated_kind (i : nat) (cfg : SelectorConfig)
    (this : SelectorBuilder) (v1 v2 : string) :
  ORDERED_SELECTORS !! i = Some cfg →
  let message_ :=
    "Element, id and pseudo-element"
      +:+ " should not occur more then one time inside the selector" in
  map name (filter (λ c, unique c = true) ORDERED_SELECTORS)
    = ["element"; "id"; "pseudoElement"]
  ∧ map errorName (filter (λ c, unique c = true) ORDERED_SELECTORS)
    = ["element"; "id"; "pseudo-element"]
  ∧ map name (filter (λ c, unique c = false) ORDERED_SELECTORS)
    = ["class"; "attr"; "pseudoClass"]
  ∧ (unique cfg = true →
     (order this = Z.of_nat i →
      invoke (name cfg) this v2 = Throw (Error message_))
     ∧ (∀ r, invoke (name cfg) this v1 = Normal r →
             invoke (name cfg) r v2 = Throw (Error message_)))
  ∧ (unique cfg = false →
     ∀ r, invoke (name cfg) this v1 = Normal r →
          invoke (name cfg) r v2 =
          Normal {| selector :=
                      (selector this +:+ toString cfg v1) +:+ toString cfg v2;
                    order := Z.of_nat i |}).
Proof.
  intros Hi message_. split_and!; [done | done | done | |].
  - intros Hu.
    assert (∀ recv v, order recv = Z.of_nat i →
              invoke (name cfg) recv v = Throw (Error message_)) as Hrep.
    { intros recv v Ho. rewrite (invoke_handler i cfg) by done.
      apply selectorMaker_throw. rewrite Hu.
      rewrite check_repeat by done. by rewrite UNIQUES_REPEAT_text. }
    split; [by apply Hrep|].
    intros r Hr. apply Hrep.
    rewrite (invoke_handler i cfg) in Hr by done.
    by apply selectorMaker_Normal in Hr as [_ ->].
  - intros Hu r Hr. rewrite (invoke_handler i cfg) in Hr |- * by done.
    apply selectorMaker_Normal in Hr as [_ ->].
    apply selectorMaker_pass, check_pass; simpl; [lia|]. by rewrite Hu.
Qed.

Lemma repeated_kind_witness :
  invoke "element" {| selector := "div"; order := 0 |} "span" =
  Throw (Error
    "Element, id and pseudo-element should not occur more then one time inside the selector")
  ∧ invoke "class" {| selector := "#main.container"; order := 2 |} "editable" =
    Normal {| selector := "#main.container.editable"; order := 2 |}.
Proof.
  split.
  - refine (proj2 (proj1 (proj2 (proj2 (proj2
      (repeated_kind 0
         {| name := "element"; unique := true;
            toString := λ s, s; errorName := "element" |}
         cssSelectorBuilder "div" "span" _))))
      _) {| selector := "div"; order := 0 |} _); reflexivity.
  - refine (proj2 (proj2 (proj2 (proj2
      (repeated_kind 2
         {| name := "class"; unique := false;
            toString := λ s, "." +:+ s; errorName := "class" |}
         {| selector := "#main"; order := 1 |} "container" "editable" _))))
      _ {| selector := "#main.container"; order := 2 |} _); reflexivity.
Defined.

(** ** Combination *)

(** C7. Combining [A] with [B] and the result with [C] gives the text
    [A c1 B c2 C], each combinator between single spaces, and nesting to
    the right gives the same expression. *)
Theorem combine_assoc (t1 t2 t3 t4 A B C : SelectorBuilder) (c1 c2 : string) :
  selector (combine t1 (combine t2 A c1 B) c2 C) =
    selector A +:+ " " +:+ c1 +:+ " " +:+ selector B
      +:+ " " +:+ c2 +:+ " " +:+ selector C
  ∧ combine t1 (combine t2 A c1 B) c2 C = combine t3 A c1 (combine t4 B c2 C).
Proof.
  unfold combine, new_SelectorBuilder; simpl.
  by rewrite !string_app_assoc.
Qed.

(** C8. The uniqueness error is thrown only by the handler of a [unique]
    kind on a receiver whose [order] is exactly that kind's rank.  A
    combined expression has [order] [-1], so every handler returns on it,
    the [unique] ones too, whatever the combined text already holds. *)
Theorem append_after_combine (i : nat) (cfg : SelectorConfig)
    (this left right : SelectorBuilder) (combinator value : string) :
  ORDERED_SELECTORS !! i = Some cfg →
  invoke (name cfg) (combine this left combinator right) value =
    Normal {| selector :=
                (selector left +:+ " " +:+ combinator +:+ " " +:+ selector right)
                  +:+ toString cfg value;
              order := Z.of_nat i |}
  ∧ (∀ recv : SelectorBuilder,
       invoke (name cfg) recv value =
         Throw (Error "Element, id and pseudo-element should not occur more then one time inside the selector") →
       unique cfg = true ∧ order recv = Z.of_nat i).
Proof.
  intros Hi. split.
  - rewrite (invoke_handler i cfg) by done.
    apply selectorMaker_pass, check_pass; simpl; lia.
  - intros recv Ht.
    destruct (invoke_Throw i cfg recv value _ Hi Ht) as [[_ [=]]|(? & ? & _)].
    done.
Qed.

Lemma append_after_combine_witness :
  invoke "id"
    (combine cssSelectorBuilder {| selector := "#a"; order := 1 |} ">"
       {| selector := "#b"; order := 1 |}) "c"
  = Normal {| selector := "#a > #b#c"; order := 1 |}.
Proof.
  refine (proj1 (append_after_combine 1
                   {| name := "id"; unique := true;
                      toString := λ s, "#" +:+ s; errorName := "id" |}
                   cssSelectorBuilder {| selector := "#a"; order := 1 |}
                   {| selector := "#b"; order := 1 |} ">" "c" _)).
  reflexivity.
Defined.

(** ** The errors *)

(** C9. The two messages are constants.  A handler whose rank is below the
    receiver's [order] throws the first; the handler of a [unique] kind on
    a receiver at the same rank throws the second; no handler of the table
    throws anything else. *)
Theorem error_messages (i : nat) (cfg : SelectorConfig)
    (this : SelectorBuilder) (value : string) :
  ORDERED_SELECTORS !! i = Some cfg →
  let wrong_order :=
    "Selector parts should be arranged in the following order: element, id, class, attribute, pseudo-class, pseudo-element" in
  let uniques_repeat :=
    "Element, id and pseudo-element should not occur more then one time inside the selector" in
  (Z.of_nat i < order this →
   invoke (name cfg) this value = Throw (Error wrong_order))
  ∧ (order this = Z.of_nat i → unique cfg = true →
     invoke (name cfg) this value = Throw (Error uniques_repeat))
  ∧ (∀ t, invoke (name cfg) this value = Throw t →
          t = Error wrong_order ∨ t = Error uniques_repeat).
Proof.
  intros Hi wrong_order uniques_repeat. split_and!.
  - intros Hlt. rewrite (invoke_handler i cfg) by done.
    apply selectorMaker_throw. by apply check_order_violation.
  - intros Ho Hu. rewrite (invoke_handler i cfg) by done.
    apply selectorMaker_throw. rewrite Hu, check_repeat by done.
    by rewrite UNIQUES_REPEAT_text.
  - intros t Ht.
    destruct (invoke_Throw i cfg this value t Hi Ht)
      as [[_ ->]|(_ & _ & Hm & Et)].
    + by left.
    + right. rewrite UNIQUES_REPEAT_text in Hm. injection Hm as Hm.
      by rewrite Et, <- Hm.
Qed.

Lemma error_messages_witness :
  invoke "pseudoElement" {| selector := "a::before"; order := 5 |} "after" =
  Throw (Error
    "Element, id and pseudo-element should not occur more then one time inside the selector").
Proof.
  refine (proj1 (proj2 (error_messages 5
                   {| name := "pseudoElement"; unique := true;
                      toString := λ s, "::" +:+ s;
                      errorName := "pseudo-element" |}
                   {| selector := "a::before"; order := 5 |} "after" _)) _ _);
    reflexivity.
Defined.

(** C10. Every failing handler of the table throws a plain [Error], never
    another kind of thrown value; two such values are equal exactly when
    their messages are, and the message of an order violation differs from
    the message of a uniqueness violation. *)
Theorem plain_errors (i1 i2 : nat) (cfg1 cfg2 : SelectorConfig)
    (this1 this2 : SelectorBuilder) (v1 v2 : string) (t1 t2 : Thrown) :
  ORDERED_SELECTORS !! i1 = Some cfg1 →
  ORDERED_SELECTORS !! i2 = Some cfg2 →
  invoke (name cfg1) this1 v1 = Throw t1 →
  invoke (name cfg2) this2 v2 = Throw t2 →
  (t1 = Error (message t1) ∧ t2 = Error (message t2))
  ∧ (t1 = t2 ↔ message t1 = message t2)
  ∧ (Z.of_nat i1 < order this1 → order this2 = Z.of_nat i2 →
     message t1 ≠ message t2).
Proof.
  intros Hi1 Hi2 Ht1 Ht2.
  assert (t1 = Error (message t1)) as E1.
  { by destruct (invoke_Throw i1 cfg1 this1 v1 t1 Hi1 Ht1)
      as [[_ ->]|(_ & _ & _ & ?)]. }
  assert (t2 = Error (message t2)) as E2.
  { by destruct (invoke_Throw i2 cfg2 this2 v2 t2 Hi2 Ht2)
      as [[_ ->]|(_ & _ & _ & ?)]. }
  split_and!; [done | done | | ].
  - split; [by intros -> | intros Hm]. rewrite E1, E2. by rewrite Hm.
  - intros Hlt Heq.
    destruct (invoke_Throw i1 cfg1 this1 v1 t1 Hi1 Ht1)
      as [[_ ->]|(? & _)]; [|lia].
    destruct (invoke_Throw i2 cfg2 this2 v2 t2 Hi2 Ht2)
      as [[? _]|(_ & _ & Hm & _)]; [lia|].
    rewrite UNIQUES_REPEAT_text in Hm. injection Hm as <-. discriminate.
Qed.

Lemma plain_errors_witness :
  message (Error
    "Selector parts should be arranged in the following order: element, id, class, attribute, pseudo-class, pseudo-element")
  ≠ message (Error
    "Element, id and pseudo-element should not occur more then one time inside the selector").
Proof.
  refine (proj2 (proj2 (plain_errors 1 0
     {| name := "id"; unique := true;
        toString := λ s, "#" +:+ s; errorName := "id" |}
     {| name := "element"; unique := true;
        toString := λ s, s; errorName := "element" |}
     {| selector := "#main.c1"; order := 2 |}
     {| selector := "div"; order := 0 |} "other" "span" _ _ _ _ _ _)) _ _);
    reflexivity.
Defined.

(** ** The store *)

Section store_facts.
Variable h : list SelectorBuilder.

Lemma store_check (this : Heap.loc) (o : SelectorBuilder)
    (order_ : Z) (isUnique : bool) :
  h !! this = Some o →
  Heap.check this order_ isUnique h = Some (check o order_ isUnique, h).
Proof.
  intros Ho. unfold Heap.check, check, mbind, Heap.M_bind, Heap.bind.
  unfold Heap.get_order at 1. rewrite Ho.
  destruct (order o >? order_); [done|].
  destruct isUnique; simpl.
  - unfold Heap.get_order. rewrite Ho. unfold Heap.ret.
    destruct (order o =? order_); [|done].
    unfold Heap.lift. by destruct (UNIQUES_REPEAT ORDERED_SELECTORS).
  - done.
Qed.

(** A handler on a reference does what the handler does on the object
    read through it: a throw leaves the store as it is, a return adds
    the new object at the end and gives its reference. *)
Lemma store_selectorMaker (this : Heap.loc) (o : SelectorBuilder)
    (order_ : Z) (unique_ : bool) (toString_ : string → string)
    (value : string) :
  h !! this = Some o →
  Heap.selectorMaker order_ unique_ toString_ this value h =
  Some match selectorMaker order_ unique_ toString_ o value with
       | Normal o' => (Normal (List.length h), h ++ [o'])
       | Throw t => (Throw t, h)
       end.
Proof.
  intros Ho. unfold Heap.selectorMaker, selectorMaker.
  unfold mbind at 1, Heap.M_bind, Heap.bind.
  rewrite (store_check this o) by done.
  destruct (check o order_ unique_) as [[]|t]; simpl; [|done].
  unfold mbind, Heap.M_bind, Heap.bind, Heap.get_selector. by rewrite Ho.
Qed.

Lemma store_invoke (n : string) (this : Heap.loc) (o : SelectorBuilder)
    (value : string) :
  h !! this = Some o →
  Heap.invoke n this value h =
  Some match invoke n o value with
       | Normal o' => (Normal (List.length h), h ++ [o'])
       | Throw t => (Throw t, h)
       end.
Proof.
  intros Ho. rewrite invoke_config.
  unfold Heap.invoke, Heap.prototype. rewrite install_lookup.
  destruct (config_of n) as [[i cfg]|]; simpl; [|done].
  by apply store_selectorMaker.
Qed.

Lemma store_combine (this selector1 selector2 : Heap.loc)
    (o o1 o2 : SelectorBuilder) (combinator : string) :
  h !! selector1 = Some o1 → h !! selector2 = Some o2 →
  Heap.combine this selector1 combinator selector2 h =
  Some (Normal (List.length h), h ++ [combine o o1 combinator o2]).
Proof.
  intros H1 H2. unfold Heap.combine, mbind, Heap.M_bind, Heap.bind.
  unfold Heap.get_selector. by rewrite H1, H2.
Qed.

Lemma store_call_inv (c : Heap.Call) (res : completion Heap.loc)
    (h' : list SelectorBuilder) :
  Heap.call c h = Some (res, h') →
  (∃ t, res = Throw t ∧ h' = h)
  ∨ (∃ o', res = Normal (List.length h) ∧ h' = h ++ [o']).
Proof.
  destruct c as [n this v|this s1 cb s2]; simpl.
  - destruct (h !! this) as [o|] eqn:Ho.
    + rewrite (store_invoke n this o) by done.
      destruct (invoke n o v) as [o'|t]; intros [= <- <-]; eauto.
    + unfold Heap.invoke, Heap.prototype. rewrite install_lookup.
      destruct (config_of n) as [[i cfg]|]; simpl.
      * unfold Heap.selectorMaker, Heap.check.
        unfold mbind, Heap.M_bind, Heap.bind, Heap.get_order.
        by rewrite Ho.
      * intros [= <- <-]. eauto.
  - destruct (h !! s1) as [o1|] eqn:H1; [destruct (h !! s2) as [o2|] eqn:H2|].
    + rewrite (store_combine this s1 s2 cssSelectorBuilder o1 o2) by done.
      intros [= <- <-]. eauto.
    + unfold Heap.combine, mbind, Heap.M_bind, Heap.bind, Heap.get_selector.
      by rewrite H1, H2.
    + unfold Heap.combine, mbind, Heap.M_bind, Heap.bind, Heap.get_selector.
      by rewrite H1.
Qed.

(** A call whose references all point to objects does return or throw. *)
Lemma store_call_total (c : Heap.Call) :
  match c with
  | Heap.CallHandler _ this _ => is_Some (h !! this)
  | Heap.CallCombine _ s1 _ s2 => is_Some (h !! s1) ∧ is_Some (h !! s2)
  end →
  is_Some (Heap.call c h).
Proof.
  destruct c as [n this v|this s1 cb s2]; simpl.
  - intros [o Ho]. by rewrite (store_invoke n this o).
  - intros [[o1 H1] [o2 H2]].
    by rewrite (store_combine this s1 s2 cssSelectorBuilder o1 o2).
Qed.

Lemma store_call_frame (c : Heap.Call) (res : completion Heap.loc)
    (h' : list SelectorBuilder) (ref : Heap.loc) (o : SelectorBuilder) :
  Heap.call c h = Some (res, h') → h !! ref = Some o → h' !! ref = Some o.
Proof.
  intros Hc Ho.
  destruct (store_call_inv c res h' Hc) as [(t & _ & ->)|(o' & _ & ->)];
    [done|].
  by apply lookup_app_l_Some.
Qed.
End store_facts.

Lemma store_run_frame (cs : list Heap.Call) (h h' : list SelectorBuilder)
    (ref : Heap.loc) (o : SelectorBuilder) :
  Heap.run cs h = Some h' → h !! ref = Some o → h' !! ref = Some o.
Proof.
  revert h. induction cs as [|c cs IH]; intros h; simpl.
  - by intros [= <-].
  - destruct (Heap.call c h) as [[res h1]|] eqn:Hc; [|done].
    intros Hrun Ho. apply (IH h1); [done|].
    by apply (store_call_frame h c res).
Qed.

(** C6. One of the six handlers or [combine], called on references,
    leaves every object of the store as it was, the receiver included:
    when it returns, the store has grown by one object and the result is
    the reference to it, which referred to nothing before; when it throws,
    the store is the same.  Whatever such calls follow, the objects stay
    as they were. *)
Theorem receiver_unchanged (h : list SelectorBuilder) (c : Heap.Call)
    (res : completion Heap.loc) (h' : list SelectorBuilder) :
  table_call c →
  Heap.call c h = Some (res, h') →
  (∀ ref o, h !! ref = Some o → h' !! ref = Some o)
  ∧ match res with
    | Normal ref' =>
        h !! ref' = None ∧ is_Some (h' !! ref')
        ∧ List.length h' = S (List.length h)
    | Throw _ => h' = h
    end
  ∧ (∀ cs h'', Forall table_call cs → Heap.run cs h' = Some h'' →
               ∀ ref o, h !! ref = Some o → h'' !! ref = Some o).
Proof.
  intros _ Hc. split_and!.
  - intros ref o. by apply (store_call_frame h c res).
  - destruct (store_call_inv h c res h' Hc) as [(t & -> & ->)|(o' & -> & ->)];
      [done|].
    split_and!.
    + by apply lookup_ge_None_2.
    + exists o'. by apply list_lookup_middle.
    + rewrite length_app. simpl. lia.
  - intros cs h'' _ Hrun ref o Ho. apply (store_run_frame cs h'); [done|].
    by apply (store_call_frame h c res).
Qed.

Lemma receiver_unchanged_witness :
  ([cssSelectorBuilder; {| selector := "#main"; order := 1 |}]
     : list SelectorBuilder) !! 0%nat = Some cssSelectorBuilder.
Proof.
  refine (proj1 (receiver_unchanged Heap.initial
                   (Heap.CallHandler "id" 0%nat "main") (Normal 1%nat)
                   [cssSelectorBuilder; {| selector := "#main"; order := 1 |}]
                   _ eq_refl) 0%nat cssSelectorBuilder _).
  - simpl. by eexists.
  - reflexivity.
Defined.

(** C4. [combine] always returns: the new expression's text is the left
    text, a space, the combinator, a space, the right text, whatever the
    combinator and whatever the [order] of either side; its [order] is
    [-1], the value the entry point starts with.  On references to two
    objects it returns the reference to that new expression. *)
Theorem combine_result (h : list SelectorBuilder)
    (recv selector1 selector2 : Heap.loc) (this left right : SelectorBuilder)
    (combinator : string) :
  let combined :=
    {| selector := selector left +:+ " " +:+ combinator +:+ " " +:+ selector right;
       order := -1 |} in
  combine this left combinator right = combined
  ∧ order cssSelectorBuilder = -1
  ∧ (h !! selector1 = Some left → h !! selector2 = Some right →
     Heap.combine recv selector1 combinator selector2 h =
     Some (Normal (List.length h), h ++ [combined])).
Proof.
  intros combined. split_and!; [done | done |].
  intros H1 H2. by rewrite (store_combine h recv _ _ this left right).
Qed.

Lemma combine_result_witness :
  Heap.combine 0%nat 1%nat "+" 2%nat
    [cssSelectorBuilder; {| selector := "div#main"; order := 1 |};
     {| selector := "p"; order := 0 |}]
  = Some (Normal 3%nat,
          [cssSelectorBuilder; {| selector := "div#main"; order := 1 |};
           {| selector := "p"; order := 0 |};
           {| selector := "div#main + p"; order := -1 |}]).
Proof.
  refine (proj2 (proj2 (combine_result
    [cssSelectorBuilder; {| selector := "div#main"; order := 1 |};
     {| selector := "p"; order := 0 |}]
    0%nat 1%nat 2%nat cssSelectorBuilder
    {| selector := "div#main"; order := 1 |} {| selector := "p"; order := 0 |}
    "+")) _ _); reflexivity.
Defined.

(** ** Chains and the invariant of the text *)

Lemma text_of_app (ps qs : list Piece) :
  text_of (ps ++ qs) = text_of ps +:+ text_of qs.
Proof.
  induction ps as [|p ps IH]; [done|].
  change (piece_text p +:+ text_of (ps ++ qs)
          = (piece_text p +:+ text_of ps) +:+ text_of qs).
  by rewrite IH, string_app_assoc.
Qed.

Lemma config_of_Some (n : string) (i : nat) (cfg : SelectorConfig) :
  config_of n = Some (i, cfg) →
  ORDERED_SELECTORS !! i = Some cfg ∧ name cfg = n
  ∧ unique_rank i = unique cfg.
Proof.
  intros Hc. apply list_find_Some in Hc as (Hi & Hn & _).
  unfold unique_rank. by rewrite Hi.
Qed.

(** What a built chain holds: either its last operation is an append of
    the kind found for the name, which passed [check], or it carries
    [order] [-1]. *)
Lemma build_Append (recv : Chain) (n v : string) (e : SelectorBuilder) :
  build (Append recv n v) = Normal e →
  ∃ this i cfg,
    build recv = Normal this ∧ config_of n = Some (i, cfg)
    ∧ check this (Z.of_nat i) (unique cfg) = Normal tt
    ∧ e = {| selector := selector this +:+ toString cfg v;
             order := Z.of_nat i |}.
Proof.
  simpl. destruct (build recv) as [this|t]; simpl; [|done].
  rewrite invoke_config. destruct (config_of n) as [[i cfg]|]; [|done].
  intros Hr. apply selectorMaker_Normal in Hr as [Hc ->].
  by exists this, i, cfg.
Qed.

(** The text of a built chain is its pieces, one after the other. *)
Lemma build_layout (c : Chain) (e : SelectorBuilder) :
  build c = Normal e → selector e = text_of (layout c).
Proof.
  revert e. induction c as [|recv IH n v|recv _ l IHl cb r IHr]; intros e.
  - by intros [= <-].
  - intros He. apply build_Append in He as (this & i & cfg & Hb & Hc & _ & ->).
    simpl. rewrite Hc, text_of_app, <- (IH this) by done.
    unfold text_of; simpl. by rewrite string_app_empty_r.
  - simpl. destruct (build recv) as [this|]; simpl; [|done].
    destruct (build l) as [s1|]; simpl; [|done].
    destruct (build r) as [s2|]; simpl; [|done].
    intros [= <-]. rewrite text_of_app, <- (IHl s1) by done.
    change (text_of (Glue (" " +:+ cb +:+ " ") :: layout r))
      with ((" " +:+ cb +:+ " ") +:+ text_of (layout r)).
    rewrite <- (IHr s2) by done. simpl.
    by rewrite !string_app_assoc.
Qed.

Lemma unique_once_snoc (ks : list nat) (k : nat) :
  unique_once ks → (unique_rank k = true → k ∉ ks) → unique_once (ks ++ [k]).
Proof.
  intros Hks Hk i j x Hi Hj Hx.
  apply lookup_snoc_Some in Hi as [[Hil Hi]|[Hil <-]];
    apply lookup_snoc_Some in Hj as [[Hjl Hj]|[Hjl E]].
  - by apply (Hks i j x).
  - subst x. destruct (Hk Hx). by apply list_elem_of_lookup_2 in Hi.
  - destruct (Hk Hx). by apply list_elem_of_lookup_2 in Hj.
  - congruence.
Qed.

Lemma rank_ordered_snoc (ks : list nat) (k : nat) :
  rank_ordered ks → Forall (λ x, (x ≤ k)%nat) ks → rank_ordered (ks ++ [k]).
Proof.
  intros Hks Hk i j a b Hij Hi Hj.
  apply lookup_snoc_Some in Hi as [[Hil Hi]|[Hil <-]];
    apply lookup_snoc_Some in Hj as [[Hjl Hj]|[Hjl <-]].
  - by apply (Hks i j).
  - by apply (Forall_lookup_1 _ _ _ _ Hk Hi).
  - lia.
  - done.
Qed.

(** The ranks since the last combination obey the invariant, none exceeds
    the expression's [order], and [order] is the last of them, or [-1]. *)
Lemma build_recent (c : Chain) (e : SelectorBuilder) :
  build c = Normal e →
  compound_invariant (recent c)
  ∧ Forall (λ k, Z.of_nat k ≤ order e) (recent c)
  ∧ order e = from_option Z.of_nat (-1) (last (recent c)).
Proof.
  revert e. induction c as [|recv IH n v|recv _ l _ cb r _]; intros e.
  - intros [= <-]. split_and!; [split; by intros ? | done..].
  - intros He. apply build_Append in He as (this & i & cfg & Hb & Hc & Hk & ->).
    destruct (IH this Hb) as ((Hu & Ho) & Hle & _).
    apply config_of_Some in Hc as Hcfg. destruct Hcfg as (_ & _ & Hur).
    simpl. rewrite Hc.
    destruct (check_cases this (Z.of_nat i) (unique cfg))
      as [[_ E]|[(_ & _ & E)|(Hi & Hne & _)]].
    { congruence. }
    { rewrite E, UNIQUES_REPEAT_text in Hk. done. }
    assert (Forall (λ x, (x ≤ i)%nat) (recent recv)) as Hbelow.
    { eapply Forall_impl; [exact Hle|]. simpl. lia. }
    split_and!.
    + split.
      * apply unique_once_snoc; [done|]. intros Hui Hin.
        rewrite Hur in Hui. specialize (Hne Hui).
        apply (proj1 (Forall_forall _ _) Hle) in Hin. simpl in Hin. lia.
      * by apply rank_ordered_snoc.
    + apply Forall_app. split; [|by repeat constructor].
      eapply Forall_impl; [exact Hbelow|]. simpl. lia.
    + by rewrite last_snoc.
  - simpl. destruct (build recv) as [this|]; simpl; [|done].
    destruct (build l) as [s1|]; simpl; [|done].
    destruct (build r) as [s2|]; simpl; [|done].
    intros [= <-]. split_and!; [split; by intros ? | done..].
Qed.

Lemma recent_kinds (c : Chain) : combine_free c = true → recent c = kinds c.
Proof.
  unfold kinds. induction c as [|recv IH n v|]; simpl; [done| |done].
  intros Hf. rewrite omap_app, <- IH by done.
  by destruct (config_of n) as [[i cfg]|].
Qed.

Example span_after_combine_built :
  build span_after_combine
    = Normal {| selector := "div > p#xspan"; order := 0 |}
  ∧ kinds span_after_combine = [0; 0; 1; 0]%nat
  ∧ last_compound (layout span_after_combine) = [0; 1; 0]%nat
  ∧ recent span_after_combine = [0]%nat.
Proof. done. Qed.

(** C5, as stated, fails: an append after a combination is checked against
    [order] [-1] only, so the text of [span_after_combine] holds [element]
    three times, and an [element] after an [id]. *)
Lemma text_invariant_fails :
  ¬ (∀ (c : Chain) (e : SelectorBuilder),
       build c = Normal e → compound_invariant (kinds c)).
Proof.
  intros Hinv.
  destruct (Hinv span_after_combine _ (proj1 span_after_combine_built))
    as [Hu Ho].
  specialize (Ho 2%nat 3%nat 1%nat 0%nat). simpl in Ho.
  specialize (Ho ltac:(lia) eq_refl eq_refl). lia.
Qed.

(** The same text breaks both halves of the invariant inside its last
    compound selector [p#xspan], where no combinator intervenes. *)
Lemma last_compound_fails :
  ¬ unique_once (last_compound (layout span_after_combine))
  ∧ ¬ rank_ordered (last_compound (layout span_after_combine)).
Proof.
  split.
  - intros Hu. by specialize (Hu 0%nat 2%nat 0%nat eq_refl eq_refl eq_refl).
  - intros Ho. specialize (Ho 1%nat 2%nat 1%nat 0%nat). simpl in Ho.
    specialize (Ho ltac:(lia) eq_refl eq_refl). lia.
Qed.

(** C5, amended.  In every expression built from the entry point by
    handlers and [combine], the kinds appended since the last combination
    never decrease in rank and hold no [unique] kind twice, and [order] is
    the rank of the last of them ([-1] when there is none).  When no
    combination was used these are all the kinds of the text, which is the
    rendered fragments one after the other. *)
Theorem recent_invariant (c : Chain) (e : SelectorBuilder) :
  build c = Normal e →
  compound_invariant (recent c)
  ∧ order e = from_option Z.of_nat (-1) (last (recent c))
  ∧ selector e = text_of (layout c)
  ∧ (combine_free c = true →
     kinds c = recent c ∧ compound_invariant (kinds c)).
Proof.
  intros He. destruct (build_recent c e He) as (Hinv & _ & Ho).
  split_and!; [done | done | by apply build_layout |].
  intros Hf. by rewrite <- recent_kinds.
Qed.

Lemma recent_invariant_witness :
  compound_invariant
    (recent (Append (Append (Append Entry "id" "main") "class" "container")
               "class" "editable")).
Proof.
  apply (proj1 (recent_invariant
                  (Append (Append (Append Entry "id" "main") "class" "container")
                     "class" "editable")
                  {| selector := "#main.container.editable"; order := 2 |}
                  eq_refl)).
Defined.

(** * Further properties of the code *)

(** ** [Utils.joinStart] *)

Lemma slice_middle {A : Type} (x y z : A) (mid : list A) :
  Js.slice (x :: mid ++ [y; z]) 1 (Some (-2)) = mid.
Proof.
  unfold Js.slice. cbn [List.length]. rewrite length_app. cbn [List.length].
  destruct (1 <? 0) eqn:E1; [apply Z.ltb_lt in E1; lia|].
  destruct (-2 <? 0) eqn:E2; [|apply Z.ltb_ge in E2; lia].
  replace (Z.to_nat (Z.min 1 (Z.of_nat (S (List.length mid + 2))))) with 1%nat
    by lia.
  replace (Z.to_nat (Z.max (Z.of_nat (S (List.length mid + 2)) + -2) 0
                     - Z.min 1 (Z.of_nat (S (List.length mid + 2)))))
    with (List.length mid) by lia.
  change (drop 1 (x :: mid ++ [y; z])) with (mid ++ [y; z]).
  apply take_app_length.
Qed.

Lemma slice_last_two {A : Type} (y z : A) (front : list A) :
  Js.slice (front ++ [y; z]) (-2) None = [y; z].
Proof.
  unfold Js.slice. rewrite length_app. cbn [List.length].
  destruct (-2 <? 0) eqn:E2; [|apply Z.ltb_ge in E2; lia].
  destruct (Z.of_nat (List.length front + 2) <? 0) eqn:E3;
    [apply Z.ltb_lt in E3; lia|].
  replace (Z.to_nat (Z.max (Z.of_nat (List.length front + 2) + -2) 0))
    with (List.length front) by lia.
  rewrite drop_app_length.
  replace (Z.to_nat _) with 2%nat by lia. done.
Qed.

(** X1. On a list of three entries or more whose first entry starts with
    an ASCII character, [joinStart] returns the first entry with that
    character in upper case, the middle entries unchanged, and the last
    two entries joined by [" and "], all separated by [", "]. *)
Theorem joinStart_long (c : ascii) (s y z : string) (mid : list string) :
  (N_of_ascii c < 128)%N →
  Utils.joinStart (String c s :: mid ++ [y; z]) =
  Normal (Js.join ", "
            (String (Js.toUpperCase c) s :: mid ++ [y +:+ " and " +:+ z])).
Proof.
  intros _. unfold Utils.joinStart. cbn [head Utils.capitalize].
  rewrite slice_middle.
  change (String c s :: mid ++ [y; z]) with ((String c s :: mid) ++ [y; z]).
  rewrite slice_last_two. reflexivity.
Qed.

Lemma joinStart_long_witness :
  Utils.joinStart ["element"; "class"; "id"; "pseudo-element"] =
  Normal "Element, class, id and pseudo-element".
Proof.
  apply (joinStart_long "e" "lement" "id" "pseudo-element" ["class"]).
  reflexivity.
Defined.

(** X2. On a list of one or two entries whose first entry starts with an
    ASCII character, the last-two slice reaches back to the first entry,
    so [joinStart] writes the first entry twice: once capitalized and once
    as it is. *)
Theorem joinStart_short (c : ascii) (s y : string) :
  (N_of_ascii c < 128)%N →
  Utils.joinStart [String c s] =
    Normal (String (Js.toUpperCase c) s +:+ ", " +:+ String c s)
  ∧ Utils.joinStart [String c s; y] =
    Normal (String (Js.toUpperCase c) s +:+ ", "
              +:+ String c s +:+ " and " +:+ y).
Proof. intros _. split; reflexivity. Qed.

Lemma joinStart_short_witness :
  Utils.joinStart ["id"] = Normal "Id, id"
  ∧ Utils.joinStart ["id"; "class"] = Normal "Id, id and class".
Proof.
  apply (joinStart_short "i" "d" "class"). reflexivity.
Defined.

(** X3. [joinStart] throws exactly when the list is empty or its first
    entry is the empty string, and what it throws is a [TypeError]. *)
Theorem joinStart_throws (list : list string) :
  ((∃ t, Utils.joinStart list = Throw t)
   ↔ head list = None ∨ head list = Some "")
  ∧ (∀ t, Utils.joinStart list = Throw t → ∃ m, t = TypeError m).
Proof.
  unfold Utils.joinStart.
  destruct list as [|[|c s] rest]; cbn [head Utils.capitalize].
  - split; [split; eauto | intros t [= <-]; eauto].
  - split; [split; eauto | intros t [= <-]; eauto].
  - split; [|by intros t].
    split; [by intros [t ?] | by intros [?|?]].
Qed.

(** ** When a handler returns *)

(** X4. A handler of the table returns exactly when its rank is above the
    receiver's [order], or equal to it for a kind that is not [unique];
    in every other case it throws. *)
Theorem append_succeeds_iff (i : nat) (cfg : SelectorConfig)
    (this : SelectorBuilder) (value : string) :
  ORDERED_SELECTORS !! i = Some cfg →
  ((∃ r, invoke (name cfg) this value = Normal r)
   ↔ order this < Z.of_nat i
     ∨ (order this = Z.of_nat i ∧ unique cfg = false))
  ∧ ((∃ t, invoke (name cfg) this value = Throw t)
     ↔ Z.of_nat i < order this
       ∨ (order this = Z.of_nat i ∧ unique cfg = true)).
Proof.
  intros Hi. rewrite (invoke_handler i cfg) by done. unfold selectorMaker.
  destruct (check_cases this (Z.of_nat i) (unique cfg))
    as [[Hlt ->]|[(Heq & Hu & ->)|(Hle & Hne & ->)]];
    rewrite ?UNIQUES_REPEAT_text; simpl.
  - split; split.
    + by intros [r ?].
    + intros [?|[? _]]; lia.
    + by left.
    + eauto.
  - split; split.
    + by intros [r ?].
    + intros [?|[_ ?]]; [lia | congruence].
    + by right.
    + eauto.
  - split; split.
    + intros _. destruct (unique cfg) eqn:Hu.
      * left. specialize (Hne eq_refl). lia.
      * destruct (decide (order this = Z.of_nat i)); [by right | left; lia].
    + eauto.
    + by intros [t ?].
    + intros [?|[Heq Hu]]; [lia | by destruct (Hne Hu)].
Qed.

Lemma append_succeeds_iff_witness :
  ∃ r, invoke "class" {| selector := "#main.a"; order := 2 |} "b" = Normal r.
Proof.
  refine (proj2 (proj1 (append_succeeds_iff 2
     {| name := "class"; unique := false;
        toString := λ s, "." +:+ s; errorName := "class" |}
     {| selector := "#main.a"; order := 2 |} "b" _)) _).
  - reflexivity.
  - right. split; reflexivity.
Defined.

(** ** Which chains of handlers are accepted *)

Lemma compound_invariant_snoc_inv (ks : list nat) (k : nat) :
  compound_invariant (ks ++ [k]) →
  compound_invariant ks
  ∧ Forall (λ x, (x ≤ k)%nat) ks
  ∧ (unique_rank k = true → k ∉ ks).
Proof.
  intros [Hu Ho].
  assert ((ks ++ [k]) !! List.length ks = Some k) as Hlast.
  { by apply list_lookup_middle. }
  split_and!.
  - split.
    + intros i j x Hi Hj. apply (Hu i j x); by apply lookup_app_l_Some.
    + intros i j a b Hij Hi Hj.
      apply (Ho i j a b); [done|by apply lookup_app_l_Some..].
  - apply Forall_lookup_2. intros i x Hi.
    apply (Ho i (List.length ks) x k); [|by apply lookup_app_l_Some|done].
    apply lookup_lt_Some in Hi. lia.
  - intros Huk Hin. apply list_elem_of_lookup_1 in Hin as [i Hi].
    assert (i = List.length ks) as ->.
    { apply (Hu i (List.length ks) k); [by apply lookup_app_l_Some|done..]. }
    apply lookup_lt_Some in Hi. lia.
Qed.

(** X5. For a chain of handler calls from the entry point, with no
    combination and with handler names of the table only, the chain builds
    without a throw exactly when the ranks of its kinds never decrease and
    no [unique] kind occurs twice: the checks reject every sequence that
    breaks the order of the table, and nothing else. *)
Theorem chain_accepted_iff (c : Chain) :
  combine_free c = true → names_known c = true →
  ((∃ e, build c = Normal e) ↔ compound_invariant (kinds c)).
Proof.
  intros Hf Hn. split.
  { intros [e He]. rewrite <- recent_kinds by done.
    by destruct (build_recent c e He) as (? & _). }
  induction c as [|recv IH n v|]; [by eexists | | done].
  simpl in Hf, Hn. apply andb_prop in Hn as [Hn Hc].
  apply bool_decide_eq_true in Hc as [[i cfg] Hc].
  unfold kinds. simpl. rewrite omap_app, Hc. simpl.
  intros Hinv. apply compound_invariant_snoc_inv in Hinv as (Hks & Hle & Hnot).
  destruct (IH Hf Hn Hks) as [this Hthis].
  destruct (build_recent recv this Hthis) as (_ & _ & Ho).
  rewrite recent_kinds in Ho by done. fold (kinds recv) in Hle, Hnot.
  apply config_of_Some in Hc as Hcfg. destruct Hcfg as (_ & _ & Hur).
  rewrite Hthis. simpl. rewrite invoke_config, Hc.
  eexists. apply selectorMaker_pass, check_pass.
  - destruct (last (kinds recv)) as [k|] eqn:Hl; simpl in Ho; [|lia].
    apply last_Some_elem_of in Hl.
    apply (proj1 (Forall_forall _ _) Hle) in Hl. lia.
  - intros Hu Heq. rewrite <- Hur in Hu.
    destruct (last (kinds recv)) as [k|] eqn:Hl; simpl in Ho; [|lia].
    assert (k = i) as -> by lia.
    apply last_Some_elem_of in Hl. by apply Hnot.
Qed.

Lemma chain_accepted_iff_witness :
  ∃ e, build (Append (Append (Append Entry "element" "a") "attr" "href")
                "pseudoClass" "focus") = Normal e.
Proof.
  refine (proj2 (chain_accepted_iff
    (Append (Append (Append Entry "element" "a") "attr" "href")
       "pseudoClass" "focus") _ _) _).
  - reflexivity.
  - reflexivity.
  - split.
    + intros i j k Hi Hj Hu.
      destruct i as [|[|[|i]]]; destruct j as [|[|[|j]]];
        simpl in Hi, Hj; try done; congruence.
    + intros i j a b Hij Hi Hj.
      destruct i as [|[|[|i]]]; destruct j as [|[|[|j]]];
        simpl in Hi, Hj; try done;
        injection Hi as <-; injection Hj as <-; lia.
Defined.

(** ** The promise tasks *)

(** X6. [willYouMarryMe] and the [async] [$willYouMarryMe] settle alike on
    every value: fulfilled with the yes or the no message on a boolean,
    rejected with the wrong-parameter error on anything else.  The
    [resolve] that [willYouMarryMe] still calls after its [reject] changes
    nothing, whatever the truthiness of the value. *)
Theorem willYouMarryMe_settles (isPositiveAnswer : Promises.JsValue) :
  Promises.willYouMarryMe isPositiveAnswer
    = Promises.dollar_willYouMarryMe isPositiveAnswer
  ∧ Promises.willYouMarryMe isPositiveAnswer =
    match isPositiveAnswer with
    | Promises.JsBoolean true => Promises.Fulfilled Promises.YES
    | Promises.JsBoolean false => Promises.Fulfilled Promises.REJ
    | _ => Promises.Rejected (Error Promises.ERR)
    end.
Proof. by destruct isPositiveAnswer as [| |[]|n|s|]. Qed.

Section chain_facts.
Context {A : Type} (length_ : nat).
Context (action : Promises.Value A → Promises.Value A
                  → completion (Promises.Value A)).

Local Abbreviation run := (foldl (Promises.callback length_ action)
                       {| Promises.resolved := []; Promises.rejected := [];
                          Promises.returned := Promises.new_Promise id |}).

Local Abbreviation counted t :=
  (List.length (filter (λ s : Promises.Settlement A,
                          Promises.counts s = true) t)).

Lemma fulfilled_snoc (t : list (Promises.Settlement A)) s :
  Promises.fulfilled (t ++ [s]) =
  Promises.fulfilled t ++
    match s with Promises.Fulfils v => [v] | Promises.Rejects _ => [] end.
Proof. unfold Promises.fulfilled. rewrite omap_app. by destruct s. Qed.

Lemma counted_snoc (t : list (Promises.Settlement A)) s :
  counted (t ++ [s])
  = (counted t + if Promises.counts s then 1 else 0)%nat.
Proof.
  rewrite filter_app, length_app, filter_cons, filter_nil.
  destruct (Promises.counts s); [by rewrite decide_True|].
  by rewrite decide_False.
Qed.

Lemma counted_le (t : list (Promises.Settlement A)) :
  (counted t ≤ List.length t)%nat.
Proof. apply length_filter. Qed.

(** While the two arrays are short of [promises.length], they hold one
    entry for each callback that has pushed, and the returned promise is
    pending. *)
Lemma run_before (t : list (Promises.Settlement A)) :
  (counted t < length_)%nat →
  Promises.resolved (run t) = Promises.fulfilled t
  ∧ (List.length (Promises.resolved (run t))
     + List.length (Promises.rejected (run t)) = counted t)%nat
  ∧ Promises.returned (run t) = Promises.Pending.
Proof.
  induction t as [|s t IH] using rev_ind; [done|].
  rewrite counted_snoc. intros Hlt.
  destruct IH as (Hres & Hsum & Hret); [lia|].
  rewrite foldl_snoc, fulfilled_snoc.
  destruct (run t) as [res rej ret]; simpl in Hres, Hsum, Hret. subst res ret.
  destruct s as [v|e]; unfold Promises.callback, Promises.catch; simpl in *.
  - rewrite length_app. simpl.
    destruct (Nat.eqb_spec
                (List.length (Promises.fulfilled t) + 1 + List.length rej)
                length_) as [E|_]; [lia|].
    simpl. rewrite length_app. simpl. split_and!; [done|lia|done].
  - rewrite app_nil_r.
    destruct (Promises.new_Error e); simpl;
      [rewrite length_app; simpl|]; split_and!; (done || lia).
Qed.

(** The callback that makes the count reach [promises.length] decides. *)
Lemma run_last (t : list (Promises.Settlement A)) s :
  counted (t ++ [s]) = length_ → Promises.counts s = true →
  Promises.returned (run (t ++ [s])) =
  match s with
  | Promises.Fulfils _ =>
      match Promises.reduce action
              (map Promises.Plain (Promises.fulfilled (t ++ [s]))) with
      | Normal r => Promises.resolve_with r Promises.Pending
      | Throw _ => Promises.Pending
      end
  | Promises.Rejects _ => Promises.Pending
  end.
Proof.
  rewrite counted_snoc. intros Hlen Hs. rewrite Hs in Hlen.
  destruct (run_before t) as (Hres & Hsum & Hret); [lia|].
  rewrite foldl_snoc, fulfilled_snoc.
  destruct (run t) as [res rej ret]; simpl in Hres, Hsum, Hret. subst res ret.
  destruct s as [v|e]; unfold Promises.callback, Promises.catch; simpl.
  - rewrite length_app. simpl.
    destruct (Nat.eqb_spec
                (List.length (Promises.fulfilled t) + 1 + List.length rej)
                length_) as [_|E]; [|lia].
    destruct (Promises.reduce action _); simpl; [done|].
    by destruct (Promises.ToString thrown).
  - by destruct (Promises.new_Error e).
Qed.

Lemma run_spec (t : list (Promises.Settlement A)) :
  (List.length t ≤ length_)%nat →
  Promises.returned (run t) =
  match last t with
  | Some (Promises.Fulfils _) =>
      if (counted t =? length_)%nat then
        match Promises.reduce action
                (map Promises.Plain (Promises.fulfilled t)) with
        | Normal r => Promises.resolve_with r Promises.Pending
        | Throw _ => Promises.Pending
        end
      else Promises.Pending
  | _ => Promises.Pending
  end.
Proof.
  intros Hle. pose proof (counted_le t) as Hc.
  destruct (Nat.eqb_spec (counted t) length_) as [Heq|Hne].
  - destruct t as [|s t _] using rev_ind; [done|].
    assert (Promises.counts s = true) as Hs.
    { rewrite counted_snoc in Heq. rewrite length_app in Hle. simpl in Hle.
      pose proof (counted_le t). destruct (Promises.counts s); [done|lia]. }
    rewrite last_snoc, run_last by done. by destruct s.
  - destruct (run_before t) as (_ & _ & ->); [lia|].
    by destruct (last t) as [[]|].
Qed.
End chain_facts.

Lemma reduce_from_plain {A : Type} (f : A → A → A)
    (action : Promises.Value A → Promises.Value A
              → completion (Promises.Value A)) (acc : A) (l : list A) :
  (∀ a b, action (Promises.Plain a) (Promises.Plain b)
          = Normal (Promises.Plain (f a b))) →
  Promises.reduce_from action (Promises.Plain acc) (map Promises.Plain l)
  = Normal (Promises.Plain (foldl f acc l)).
Proof.
  intros Hf. revert acc. induction l as [|x l IH]; intros acc; [done|].
  simpl. rewrite Hf. apply IH.
Qed.

Section schedule_facts.
Context {A : Type} (promises : list (option (Promises.Settlement A))).

Local Abbreviation counted t :=
  (List.length (filter (λ s : Promises.Settlement A,
                          Promises.counts s = true) t)).

Local Abbreviation pushing l :=
  (filter (λ i, Promises.pushes promises i = true) l).

Lemma settlements_length (schedule : list nat) :
  NoDup schedule →
  (List.length (Promises.settlements promises schedule)
   ≤ List.length promises)%nat.
Proof.
  intros Hnd.
  transitivity (List.length
                  (filter (λ i, (i < List.length promises)%nat) schedule)).
  - unfold Promises.settlements. clear Hnd.
    induction schedule as [|i sch IH]; [done|].
    rewrite filter_cons. unfold omap in IH |- *. simpl.
    destruct (promises !! i) as [o|] eqn:Hi; simpl.
    + apply lookup_lt_Some in Hi. rewrite decide_True by done.
      destruct o; simpl; lia.
    + case_decide; simpl; lia.
  - transitivity (List.length (seq 0 (List.length promises)));
      [|by rewrite length_seq].
    apply submseteq_length, NoDup_submseteq; [by apply NoDup_filter|].
    intros i [Hi _]%list_elem_of_filter. apply elem_of_seq. lia.
Qed.

Lemma counted_filter (schedule : list nat) :
  counted (Promises.settlements promises schedule)
  = List.length (pushing schedule).
Proof.
  unfold Promises.settlements.
  induction schedule as [|i sch IH]; [done|].
  assert (Promises.pushes promises i
          = from_option Promises.counts false (mjoin (promises !! i))) as Hp
    by done.
  unfold omap in IH |- *. simpl.
  destruct (mjoin (promises !! i)) as [s|]; simpl in Hp.
  - rewrite filter_cons. destruct (Promises.counts s) eqn:Hs.
    + rewrite decide_True, filter_cons_True by done. simpl. by rewrite IH.
    + rewrite decide_False, filter_cons_False by congruence. done.
  - rewrite filter_cons_False by congruence. done.
Qed.

(** A promise that never settles, or whose rejection reason [new Error]
    refuses, leaves the count short for good. *)
Lemma counted_short (schedule : list nat) (j : nat) :
  NoDup schedule → (j < List.length promises)%nat →
  Promises.pushes promises j = false →
  (counted (Promises.settlements promises schedule)
   < List.length promises)%nat.
Proof.
  intros Hnd Hj Hno. rewrite counted_filter.
  apply Nat.le_lt_trans
    with (List.length (pushing (seq 0 (List.length promises)))).
  - apply submseteq_length, NoDup_submseteq; [by apply NoDup_filter|].
    intros i [Hi Hin]%list_elem_of_filter. apply list_elem_of_filter.
    split; [done|]. apply elem_of_seq.
    unfold Promises.pushes in Hi.
    destruct (promises !! i) eqn:E; [|done].
    apply lookup_lt_Some in E. lia.
  - rewrite <- (length_seq (List.length promises) 0) at 2.
    apply (length_filter_lt _ _ j); [|congruence].
    apply elem_of_seq. lia.
Qed.

(** When every promise settles with a callback that pushes and every
    callback has run, the count is [promises.length]. *)
Lemma counted_all (schedule : list nat) :
  (∀ i, (i < List.length promises)%nat → Promises.pushes promises i = true) →
  schedule ≡ₚ seq 0 (List.length promises) →
  counted (Promises.settlements promises schedule) = List.length promises.
Proof.
  intros Hall Hperm. rewrite counted_filter.
  assert (Forall (λ i, Promises.pushes promises i = true) schedule) as Hs.
  { apply Forall_forall. intros i Hi. rewrite Hperm in Hi.
    apply elem_of_seq in Hi. apply Hall. lia. }
  transitivity (List.length (seq 0 (List.length promises)));
    [|apply length_seq].
  rewrite <- Hperm. clear Hperm. f_equal.
  induction Hs as [|i sch Hi _ IH]; [done|].
  by rewrite filter_cons_True, IH.
Qed.
End schedule_facts.

(** What the returned promise is once the callbacks of a schedule have
    run. *)
Lemma chainPromises_spec {A : Type}
    (promises : list (option (Promises.Settlement A)))
    (action : Promises.Value A → Promises.Value A
              → completion (Promises.Value A)) (schedule : list nat) :
  NoDup schedule →
  Promises.chainPromises promises action schedule =
  match last (Promises.settlements promises schedule) with
  | Some (Promises.Fulfils _) =>
      if (List.length
            (filter (λ s, Promises.counts s = true)
               (Promises.settlements promises schedule))
          =? List.length promises)%nat
      then
        match Promises.reduce action
                (map Promises.Plain
                   (Promises.fulfilled
                      (Promises.settlements promises schedule)))
        with
        | Normal r => Promises.resolve_with r Promises.Pending
        | Throw _ => Promises.Pending
        end
      else Promises.Pending
  | _ => Promises.Pending
  end.
Proof.
  intros Hnd. unfold Promises.chainPromises, Promises.chainPromises_run.
  apply run_spec. by apply settlements_length.
Qed.

Lemma pushes_settled {A : Type}
    (promises : list (option (Promises.Settlement A))) :
  Forall is_Some promises →
  (∀ e, Some (Promises.Rejects e) ∈ promises →
        ∃ err, Promises.new_Error e = Normal err) →
  ∀ i, (i < List.length promises)%nat → Promises.pushes promises i = true.
Proof.
  intros Hall Hprint i Hi. unfold Promises.pushes.
  destruct (lookup_lt_is_Some_2 promises i Hi) as [o Ho]. rewrite Ho.
  destruct (proj1 (Forall_lookup _ _) Hall i o Ho) as [[v|e] ->]; [done|].
  simpl. destruct (Hprint e) as [err ->]; [|done].
  by apply list_elem_of_lookup_2 with i.
Qed.

Lemma resolve_with_Pending {A : Type} (r : Promises.Value A) :
  Promises.resolve_with r Promises.Pending =
  match r with
  | Promises.Plain a => Promises.Fulfilled a
  | Promises.Thenable outcome => outcome
  end.
Proof. by destruct r. Qed.

(** X7. Let every promise of the array settle, every rejection reason be
    one that [new Error] accepts, every callback have run (each once, in
    any order), and [action] return the plain value [f a b] on plain
    values.  When the promise that settles last fulfils, [chainPromises]
    fulfils the returned promise with [f] folded from the left over the
    fulfilled values, in the order they settled and not in array order;
    the rejected promises are skipped. *)
Theorem chainPromises_fulfilled {A : Type}
    (promises : list (option (Promises.Settlement A))) (f : A → A → A)
    (action : Promises.Value A → Promises.Value A
              → completion (Promises.Value A))
    (schedule : list nat) (v : A) :
  Forall is_Some promises →
  (∀ e, Some (Promises.Rejects e) ∈ promises →
        ∃ err, Promises.new_Error e = Normal err) →
  schedule ≡ₚ seq 0 (List.length promises) →
  last (Promises.settlements promises schedule) = Some (Promises.Fulfils v) →
  (∀ a b, action (Promises.Plain a) (Promises.Plain b)
          = Normal (Promises.Plain (f a b))) →
  ∃ v0 vs,
    Promises.fulfilled (Promises.settlements promises schedule) = v0 :: vs
    ∧ last (v0 :: vs) = Some v
    ∧ Promises.chainPromises promises action schedule
      = Promises.Fulfilled (foldl f v0 vs).
Proof.
  intros Hall Hprint Hperm Hlast Hf.
  assert (NoDup schedule) as Hnd by (rewrite Hperm; apply NoDup_seq).
  rewrite chainPromises_spec, Hlast by done.
  rewrite counted_all, Nat.eqb_refl
    by (done || by apply pushes_settled).
  destruct (Promises.settlements promises schedule) as [|s t _] using rev_ind;
    [done|].
  rewrite last_snoc in Hlast. injection Hlast as ->.
  rewrite fulfilled_snoc.
  destruct (Promises.fulfilled t ++ [v]) as [|v0 vs] eqn:E.
  { by destruct (Promises.fulfilled t). }
  exists v0, vs. split_and!; [done| |].
  - by rewrite <- E, last_snoc.
  - simpl. by rewrite (reduce_from_plain f).
Qed.

Lemma chainPromises_fulfilled_witness :
  ∃ v0 vs,
    Promises.fulfilled
      (Promises.settlements
         [Some (Promises.Fulfils 1);
          Some (Promises.Rejects (Promises.ErrorObject (Error "no")));
          Some (Promises.Fulfils 3)] [2; 1; 0]%nat) = v0 :: vs
    ∧ last (v0 :: vs) = Some 1
    ∧ Promises.chainPromises
        [Some (Promises.Fulfils 1);
         Some (Promises.Rejects (Promises.ErrorObject (Error "no")));
         Some (Promises.Fulfils 3)]
        (λ a b,
           match a, b with
           | Promises.Plain x, Promises.Plain y => Normal (Promises.Plain (x - y))
           | _, _ => Throw (TypeError "not a number")
           end) [2; 1; 0]%nat
      = Promises.Fulfilled (foldl Z.sub v0 vs).
Proof.
  apply (chainPromises_fulfilled
           [Some (Promises.Fulfils 1);
            Some (Promises.Rejects (Promises.ErrorObject (Error "no")));
            Some (Promises.Fulfils 3)] Z.sub _ [2; 1; 0]%nat 1).
  - repeat constructor; by eexists.
  - intros e He.
    apply list_elem_of_In in He.
    destruct He as [He|[He|[He|[]]]]; [done| |done].
    injection He as <-. by eexists.
  - simpl. etrans; [apply perm_swap|].
    etrans; [apply perm_skip, perm_swap|]. apply perm_swap.
  - reflexivity.
  - reflexivity.
Defined.

(** X8. [chainPromises] leaves the returned promise pending for good, with
    every callback run, when the array is empty, when the promise that
    settles last is rejected, when some promise of the array never
    settles, when [action] throws during the final reduce, or when some
    promise is rejected with a reason that [new Error] refuses. *)
Theorem chainPromises_pending {A : Type}
    (promises : list (option (Promises.Settlement A)))
    (action : Promises.Value A → Promises.Value A
              → completion (Promises.Value A)) (schedule : list nat) :
  NoDup schedule →
  promises = []
  ∨ (∃ e, last (Promises.settlements promises schedule)
          = Some (Promises.Rejects e))
  ∨ (∃ j, promises !! j = Some None)
  ∨ (∃ t, Promises.reduce action
            (map Promises.Plain
               (Promises.fulfilled (Promises.settlements promises schedule)))
          = Throw t)
  ∨ (∃ j e t, promises !! j = Some (Some (Promises.Rejects e))
              ∧ Promises.new_Error e = Throw t) →
  Promises.chainPromises promises action schedule = Promises.Pending.
Proof.
  intros Hnd Hcase. rewrite chainPromises_spec by done.
  assert (∀ j, (j < List.length promises)%nat →
               Promises.pushes promises j = false →
               match last (Promises.settlements promises schedule) with
               | Some (Promises.Fulfils _) =>
                   if (List.length
                         (filter (λ s, Promises.counts s = true)
                            (Promises.settlements promises schedule))
                       =? List.length promises)%nat
                   then
                     match Promises.reduce action
                             (map Promises.Plain
                                (Promises.fulfilled
                                   (Promises.settlements promises schedule)))
                     with
                     | Normal r => Promises.resolve_with r Promises.Pending
                     | Throw _ => Promises.Pending
                     end
                   else Promises.Pending
               | _ => Promises.Pending
               end = Promises.Pending) as Hshort.
  { intros j Hj Hno.
    pose proof (counted_short promises schedule j Hnd Hj Hno) as Hlt.
    destruct (last _) as [[]|]; [|done..].
    destruct (Nat.eqb_spec
                (List.length
                   (filter (λ s, Promises.counts s = true)
                      (Promises.settlements promises schedule)))
                (List.length promises)); [lia|done]. }
  destruct Hcase as [->|[[e ->]|[[j Hj]|[[t Ht]|(j & e & t & Hj & He)]]]].
  - unfold Promises.settlements.
    replace (omap _ schedule) with (@nil (Promises.Settlement A)); [done|].
    clear Hnd Hshort. induction schedule as [|i sch IH]; [done|].
    unfold omap in IH |- *. simpl. exact IH.
  - done.
  - apply (Hshort j); [by apply lookup_lt_Some in Hj|].
    unfold Promises.pushes. by rewrite Hj.
  - rewrite Ht. destruct (last _) as [[]|]; [|done..].
    by destruct (_ =? _)%nat.
  - apply (Hshort j); [by apply lookup_lt_Some in Hj|].
    unfold Promises.pushes. rewrite Hj. simpl. by rewrite He.
Qed.

Lemma chainPromises_pending_witness :
  Promises.chainPromises
    [Some (Promises.Fulfils 1);
     Some (Promises.Rejects (Promises.ErrorObject (Error "no")))]
    (λ a _, Normal a) [0; 1]%nat
  = Promises.Pending.
Proof.
  apply chainPromises_pending.
  - apply (bool_decide_unpack _). exact I.
  - right; left. by eexists.
Defined.

(** X9. [chainPromises] settles the returned promise only from the
    callback of the promise that settles last.  Whenever the returned
    promise is not pending, every promise of the array has settled, every
    rejection reason is one that [new Error] accepts, the last promise to
    settle fulfilled, and the reduce of the fulfilled values by [action]
    returned: the returned promise is fulfilled with that result when it
    is plain, and ends as that result does when it is a thenable.  So it
    is rejected only when [action] returns a thenable that rejects. *)
Theorem chainPromises_outcome {A : Type}
    (promises : list (option (Promises.Settlement A)))
    (action : Promises.Value A → Promises.Value A
              → completion (Promises.Value A)) (schedule : list nat) :
  NoDup schedule →
  Promises.chainPromises promises action schedule ≠ Promises.Pending →
  Forall is_Some promises
  ∧ (∀ e, Some (Promises.Rejects e) ∈ promises →
          ∃ err, Promises.new_Error e = Normal err)
  ∧ (∃ v, last (Promises.settlements promises schedule)
          = Some (Promises.Fulfils v))
  ∧ (∃ r, Promises.reduce action
            (map Promises.Plain
               (Promises.fulfilled (Promises.settlements promises schedule)))
          = Normal r
          ∧ Promises.chainPromises promises action schedule =
            match r with
            | Promises.Plain a => Promises.Fulfilled a
            | Promises.Thenable outcome => outcome
            end)
  ∧ (∀ e, Promises.chainPromises promises action schedule
          = Promises.Rejected e →
          Promises.reduce action
            (map Promises.Plain
               (Promises.fulfilled (Promises.settlements promises schedule)))
          = Normal (Promises.Thenable (Promises.Rejected e))).
Proof.
  intros Hnd Hset.
  assert (∀ j, (j < List.length promises)%nat →
               Promises.pushes promises j = true) as Hpush.
  { intros j Hj. destruct (Promises.pushes promises j) eqn:Hp; [done|].
    destruct Hset. rewrite (chainPromises_spec promises action schedule Hnd).
    pose proof (counted_short promises schedule j Hnd Hj Hp) as Hlt.
    destruct (last _) as [[]|]; [|done..].
    destruct (Nat.eqb_spec
                (List.length
                   (filter (λ s, Promises.counts s = true)
                      (Promises.settlements promises schedule)))
                (List.length promises)); [lia|done]. }
  assert (∃ v r,
            last (Promises.settlements promises schedule)
              = Some (Promises.Fulfils v)
            ∧ Promises.reduce action
                (map Promises.Plain
                   (Promises.fulfilled
                      (Promises.settlements promises schedule)))
              = Normal r
            ∧ Promises.chainPromises promises action schedule
              = Promises.resolve_with r Promises.Pending)
    as (v & r & Hlast & Hr & Hres).
  { rewrite chainPromises_spec in Hset |- * by done.
    destruct (last _) as [[v|]|]; [|done..].
    destruct (_ =? _)%nat; [|done].
    destruct (Promises.reduce _ _) as [r|]; [|done]. eauto. }
  rewrite resolve_with_Pending in Hres.
  split_and!.
  - apply Forall_lookup_2. intros j o Hj.
    specialize (Hpush j ltac:(by apply lookup_lt_Some in Hj)).
    unfold Promises.pushes in Hpush. rewrite Hj in Hpush.
    by destruct o; [eexists|].
  - intros e [j Hj]%list_elem_of_lookup_1.
    specialize (Hpush j ltac:(by apply lookup_lt_Some in Hj)).
    unfold Promises.pushes in Hpush. rewrite Hj in Hpush. simpl in Hpush.
    destruct (Promises.new_Error e); [by eexists|done].
  - eauto.
  - eauto.
  - intros e He. rewrite Hr. rewrite He in Hres.
    destruct r as [a|q]; [done|]. by rewrite Hres.
Qed.

Lemma chainPromises_outcome_witness :
  ∃ r, Promises.reduce
         (λ _ _ : Promises.Value Z,
            Normal (Promises.Thenable (Promises.Rejected (Error "boom"))))
         (map Promises.Plain
            (Promises.fulfilled
               (Promises.settlements
                  [Some (Promises.Fulfils 1); Some (Promises.Fulfils 2)]
                  [0; 1]%nat)))
       = Normal r
       ∧ Promises.chainPromises
           [Some (Promises.Fulfils 1); Some (Promises.Fulfils 2)]
           (λ _ _, Normal (Promises.Thenable (Promises.Rejected (Error "boom"))))
           [0; 1]%nat
         = match r with
           | Promises.Plain a => Promises.Fulfilled a
           | Promises.Thenable outcome => outcome
           end.
Proof.
  refine (proj1 (proj2 (proj2 (proj2 (chainPromises_outcome
    [Some (Promises.Fulfils 1); Some (Promises.Fulfils 2)]
    (λ _ _, Normal (Promises.Thenable (Promises.Rejected (Error "boom"))))
    [0; 1]%nat _ _))))).
  - apply (bool_decide_unpack _). exact I.
  - discriminate.
Defined.

(** ** Fragments *)

Lemma string_length_app (a b : string) :
  String.length (a +:+ b) = (String.length a + String.length b)%nat.
Proof.
  induction a as [|c a IH]; [done|].
  change (S (String.length (a +:+ b))
          = S (String.length a + String.length b)). by rewrite IH.
Qed.

Lemma string_app_inj_r (a b t : string) : a +:+ t = b +:+ t → a = b.
Proof.
  revert b. induction a as [|c a IH]; intros [|d b] H.
  - done.
  - apply (f_equal String.length) in H.
    rewrite !string_length_app in H. simpl in H. lia.
  - apply (f_equal String.length) in H.
    rewrite !string_length_app in H. simpl in H. lia.
  - change (String c (a +:+ t) = String d (b +:+ t)) in H.
    injection H as -> H. f_equal. by apply IH.
Qed.

(** X10. Every kind renders distinct values to distinct fragments, so a
    handler called on the same receiver with two different values never
    returns the same expression. *)
Theorem rendering_injective (i : nat) (cfg : SelectorConfig)
    (this r : SelectorBuilder) (v1 v2 : string) :
  ORDERED_SELECTORS !! i = Some cfg →
  (toString cfg v1 = toString cfg v2 → v1 = v2)
  ∧ (invoke (name cfg) this v1 = Normal r →
     invoke (name cfg) this v2 = Normal r → v1 = v2).
Proof.
  intros Hi.
  assert (toString cfg v1 = toString cfg v2 → v1 = v2) as Hinj.
  { do 6 (destruct i as [|i];
          [injection Hi as <-; simpl; intros H;
           repeat (apply (inj (String.app _)) in H);
           try (apply string_app_inj_r in H); exact H|]).
    discriminate. }
  split; [done|].
  rewrite !(invoke_handler i cfg) by done. intros H1 H2.
  apply selectorMaker_Normal in H1 as [_ ->].
  apply selectorMaker_Normal in H2 as [_ [= H]].
  apply Hinj. by apply (inj (String.app _)) in H.
Qed.

Lemma rendering_injective_witness :
  toString {| name := "attr"; unique := false;
              toString := λ s, "[" +:+ s +:+ "]"; errorName := "attribute" |}
    "href" = "[href]"
  ∧ "href" = "href".
Proof.
  split; [reflexivity|].
  apply (proj1 (rendering_injective 3
     {| name := "attr"; unique := false;
        toString := λ s, "[" +:+ s +:+ "]"; errorName := "attribute" |}
     cssSelectorBuilder cssSelectorBuilder "href" "href" eq_refl)).
  reflexivity.
Defined.
